(** * conda_local: a shallow embedding of the orchestration API and of the
      external channel interface

    The development follows [conda_local/api.py] and
    [conda_local/external.py].  Package records, paths and channels are
    plain data; the file system is a finite map from paths to nodes; every
    operation that touches the file system, the network or the index
    builder lives in a state-and-exception monad that also records the
    calls made to the outside world. *)

From Stdlib Require Import Structures.OrderedTypeEx.
From stdpp Require Import gmap strings list sorting.

Set Warnings "-clear-no-such-hyp,-register-all".

Local Open Scope string_scope.
Local Open Scope list_scope.
Local Open Scope Z_scope.

(** ** Package records *)

(** The attributes of conda's [PackageRecord] the program reads. *)
Record PackageRecord := mkRecord {
  pr_subdir : string;
  pr_name : string;
  pr_version : string;
  pr_build : string;
  pr_build_number : Z;
  pr_fn : string;
  pr_url : string;
  pr_sha256 : string;
  pr_size : Z;
  pr_channel : string;
}.

#[global] Instance PackageRecord_eq_dec : EqDecision PackageRecord.
Proof. solve_decision. Defined.

Definition record_to_tuple (r : PackageRecord) :
    string * string * string * string * Z * string * string * string * Z * string :=
  (pr_subdir r, pr_name r, pr_version r, pr_build r, pr_build_number r,
   pr_fn r, pr_url r, pr_sha256 r, pr_size r, pr_channel r).

Definition record_of_tuple
    (t : string * string * string * string * Z * string * string * string * Z * string) :
    PackageRecord :=
  let '(sd, n, v, b, bn, f, u, h, sz, c) := t in mkRecord sd n v b bn f u h sz c.

#[global] Instance PackageRecord_countable : Countable PackageRecord.
Proof.
  apply (inj_countable' record_to_tuple record_of_tuple).
  by intros [].
Defined.

(** ** Grouping utility *)

Module Grouping.
Section grouping.
Context {K V : Type} `{Countable K}.

(** Modelled from the spec: [conda_local/grouping.py] is not among the
    sources.  A grouping is an ordered multi-map from key to bucket;
    buckets appear in the order their key was first seen and keep the
    insertion order of their items. *)
Definition t : Type := list (K * list V).

(** Modelled from the spec: append the item to the bucket of its key,
    creating the bucket on first use. *)
Fixpoint add (k : K) (v : V) (g : t) : t :=
  match g with
  | [] => [(k, [v])]
  | (k', b) :: g' =>
      if decide (k = k') then (k', b ++ [v]) :: g'
      else (k', b) :: add k v g'
  end.

(** Modelled from the spec: [groupby(items, key_function)]; no sorting,
    no deduplication. *)
Definition groupby (items : list V) (key : V → K) : t :=
  foldl (λ g x, add (key x) x g) [] items.

(** Modelled from the spec: the key view, usable in set differences. *)
Definition keys (g : t) : gset K := list_to_set (g.*1).

(** Modelled from the spec: indexed bucket retrieval; an absent key
    yields an empty result. *)
Fixpoint getitem (g : t) (k : K) : list V :=
  match g with
  | [] => []
  | (k', b) :: g' => if decide (k = k') then b else getitem g' k
  end.
End grouping.
End Grouping.

(** ** [compare_records] *)

Definition RecordKey : Type := string * string * string * string * Z.

(** The local function [no_channel_key] of [compare_records]. *)
Definition no_channel_key (record : PackageRecord) : RecordKey :=
  (pr_subdir record, pr_name record, pr_version record, pr_build record,
   pr_build_number record).

(** The set comprehension
    [{record for key in a.keys() - b.keys() for record in a[key]}]. *)
Definition only_in (a b : Grouping.t (K:=RecordKey) (V:=PackageRecord)) :
    gset PackageRecord :=
  list_to_set (elements (Grouping.keys a ∖ Grouping.keys b) ≫= Grouping.getitem a).

(** [compare_records(left, right)] on two iterables that have been read
    to the end. *)
Definition compare_records (left right : list PackageRecord) :
    gset PackageRecord * gset PackageRecord :=
  let left_group := Grouping.groupby left no_channel_key in
  let right_group := Grouping.groupby right no_channel_key in
  (only_in left_group right_group, only_in right_group left_group).

(** ** Paths and the file system *)

(** A [pathlib.Path], as the list of its components; [p / a / b] is
    [p ++ [a; b]].  The empty path is the working directory. *)
Abbreviation Path := (list string).

Definition bytes : Type := list Byte.byte.

Inductive node :=
  | File (content : bytes)
  | Dir.

Abbreviation FS := (gmap Path node).

(** [path.parent] *)
Definition parent (p : Path) : Path := removelast p.

(** [path.name] *)
Definition basename (p : Path) : string := List.last p "".

(** [p.relative_to(root)] for a path [p] found below [root]. *)
Definition relative_to (p root : Path) : Path := drop (length root) p.

Definition is_dir (fs : FS) (p : Path) : bool :=
  match p with
  | [] => true
  | _ => match fs !! p with Some Dir => true | _ => false end
  end.

Definition is_file (fs : FS) (p : Path) : bool :=
  match fs !! p with Some (File _) => true | _ => false end.

Definition path_exists (fs : FS) (p : Path) : bool := is_dir fs p || is_file fs p.

(** [root] is a proper ancestor of [p]. *)
Definition below (root p : Path) : bool :=
  bool_decide (take (length root) p = root) && bool_decide (length root < length p)%nat.

(** ** Exceptions *)

Inductive exn :=
  | UnavailableInvalidChannel
  | HTTPError
  | FileNotFoundError
  | FileExistsError
  | IsADirectoryError
  | NotADirectoryError
  | SameFileError
  | JSONDecodeError
  | KeyError
  | IndexError
  | AttributeError
  | TypeError
  | ExternalError (tag : string).

#[global] Instance exn_eq_dec : EqDecision exn.
Proof. solve_decision. Defined.

Definition Result (A : Type) : Type := exn + A.
Abbreviation Ok := inr (only parsing).
Abbreviation Err := inl (only parsing).

(** [Path.mkdir(parents=True, exist_ok=True)]: every missing ancestor is
    created; a regular file in the way raises. *)
Fixpoint mkdir_from (fs : FS) (done_ todo : Path) : Result FS :=
  match todo with
  | [] => Ok fs
  | c :: rest =>
      let p := done_ ++ [c] in
      match fs !! p with
      | Some (File _) =>
          Err (match rest with [] => FileExistsError | _ => NotADirectoryError end)
      | Some Dir => mkdir_from fs p rest
      | None => mkdir_from (<[p := Dir]> fs) p rest
      end
  end.

Definition mkdir_parents (fs : FS) (p : Path) : Result FS := mkdir_from fs [] p.

(** Opening [p] for writing and storing [content]: the parent directory
    must exist, and [p] must not be a directory. *)
Definition write_file (fs : FS) (p : Path) (content : bytes) : Result FS :=
  if is_dir fs p then Err IsADirectoryError
  else if is_dir fs (parent p) then Ok (<[p := File content]> fs)
  else if is_file fs (parent p) then Err NotADirectoryError
  else Err FileNotFoundError.

Definition read_file (fs : FS) (p : Path) : Result bytes :=
  match fs !! p with
  | Some (File c) => Ok c
  | Some Dir => Err IsADirectoryError
  | None => match p with [] => Err IsADirectoryError | _ => Err FileNotFoundError end
  end.

(** [Path.glob("**/*")]: every entry below [root], files and directories. *)
Definition glob_all (fs : FS) (root : Path) : list Path :=
  filter (λ p, below root p = true) (map_to_list fs).*1.

(** ** JSON documents *)

Inductive Json :=
  | JNull
  | JBool (b : bool)
  | JNum (z : Z)
  | JStr (s : string)
  | JArr (items : list Json)
  | JObj (members : list (string * Json)).

(** [data[key].append(item)] on a decoded document. *)
Fixpoint members_append (members : list (string * Json)) (key : string) (item : Json) :
    Result (list (string * Json)) :=
  match members with
  | [] => Err KeyError
  | (k, v) :: rest =>
      if decide (k = key) then
        match v with
        | JArr items => Ok ((k, JArr (items ++ [item])) :: rest)
        | _ => Err AttributeError
        end
      else
        match members_append rest key item with
        | Ok rest' => Ok ((k, v) :: rest')
        | Err e => Err e
        end
  end.

Definition json_append (data : Json) (key : string) (item : Json) : Result Json :=
  match data with
  | JObj members =>
      match members_append members key item with
      | Ok members' => Ok (JObj members')
      | Err e => Err e
      end
  | _ => Err TypeError
  end.

(** [data[key]] on a decoded object, when the key is there. *)
Fixpoint members_get (members : list (string * Json)) (key : string) : option Json :=
  match members with
  | [] => None
  | (k, v) :: rest => if decide (k = key) then Some v else members_get rest key
  end.

Definition json_get (data : Json) (key : string) : option Json :=
  match data with
  | JObj members => members_get members key
  | _ => None
  end.

(** ** The outside world *)

(** The file list of a tar archive: archive name and node stored. *)
Definition Archive : Type := list (Path * node).

Record Response := mkResponse {
  status_code : Z;
  content : bytes;
}.

(** What the program sees of the outside world, in the order it happens. *)
Inductive Event :=
  | EvPrint (msg : string)
  | EvLogInfo (p : Path)
  | EvHttpGet (url : string)
  | EvDownload (url : string) (target : Path) (sha256 : option string) (size : option Z)
  | EvMkdir (p : Path)
  | EvWriteFile (p : Path)
  | EvOpenRW (p : Path)
  | EvUpdateIndex (target : Path) (patch_generator : option Archive) (progress : bool).

(** The libraries the program calls into: conda, conda_build, requests,
    hashlib, json, pathlib and urllib. *)
Record Env := mkEnv {
  (** [conda.api.SubdirData.query_all(spec, channels, subdirs)] *)
  query_all : FS → string → list string → option (list string) → Result (list PackageRecord);
  (** [DependencyFinder(channels, subdirs).search(specs)], the records *)
  finder_search : FS → list string → list string → list string → Result (list PackageRecord);
  (** [conda.base.context.context.subdirs] *)
  context_subdirs : list string;
  (** [conda.models.channel.all_channel_urls(channels, subdirs)] *)
  all_channel_urls : list string → list string → list string;
  (** [urllib.parse.urljoin] *)
  urljoin : string → string → string;
  (** [requests.get] *)
  requests_get : string → Result Response;
  (** the bytes [conda.exports._download] stores at its target *)
  conda_download : string → option string → option Z → Result bytes;
  (** [hashlib.sha256(data).hexdigest()] *)
  sha256_hexdigest : bytes → string;
  (** [json.load] and [json.dump] *)
  json_load : bytes → Result Json;
  json_dump : Json → bytes;
  (** [conda_build.api.update_index] *)
  conda_build_update_index : FS → Path → option Archive → bool → Result FS;
  (** [Path(s)], [Path.resolve()] and [Path.as_uri()] *)
  path_of_string : string → Path;
  resolve : Path → Path;
  as_uri : Path → string;
}.

(** ** The monad of effects *)

(** A computation reads and changes the file system, records the events it
    causes and either returns or raises; what has been done before a raise
    stays done. *)
Definition M (A : Type) : Type := FS → Result A * FS * list Event.

Definition ret {A} (a : A) : M A := λ fs, (Ok a, fs, []).

Definition raise {A} (e : exn) : M A := λ fs, (Err e, fs, []).

Definition bind {A B} (m : M A) (f : A → M B) : M B :=
  λ fs,
    match m fs with
    | (Ok a, fs1, t1) => let '(r, fs2, t2) := f a fs1 in (r, fs2, t1 ++ t2)
    | (Err e, fs1, t1) => (Err e, fs1, t1)
    end.

Notation "x <- m ;; k" := (bind m (λ x, k))
  (at level 100, m at next level, right associativity, only parsing).
Notation "m ;;; k" := (bind m (λ _, k))
  (at level 100, right associativity, only parsing).

Definition emit (ev : Event) : M unit := λ fs, (Ok tt, fs, [ev]).

Definition get_fs : M FS := λ fs, (Ok fs, fs, []).

Definition lift {A} (r : Result A) : M A := λ fs, (r, fs, []).

(** A change of the file system that may raise. *)
Definition update_fs (f : FS → Result FS) : M unit :=
  λ fs, match f fs with Ok fs' => (Ok tt, fs', []) | Err e => (Err e, fs, []) end.

(** [try: m except e: handler(e)] *)
Definition try_except {A} (m : M A) (handler : exn → M A) : M A :=
  λ fs,
    match m fs with
    | (Ok a, fs1, t1) => (Ok a, fs1, t1)
    | (Err e, fs1, t1) => let '(r, fs2, t2) := handler e fs1 in (r, fs2, t1 ++ t2)
    end.

(** [for x in l: body(x)] *)
Fixpoint for_each {A} (l : list A) (body : A → M unit) : M unit :=
  match l with
  | [] => ret tt
  | x :: l' => body x ;;; for_each l' body
  end.

(** [[body(x) for x in l]] *)
Fixpoint map_m {A B} (l : list A) (body : A → M B) : M (list B) :=
  match l with
  | [] => ret []
  | x :: l' => y <- body x ;; ys <- map_m l' body ;; ret (y :: ys)
  end.

Definition result_of {A} (o : Result A * FS * list Event) : Result A := o.1.1.
Definition fs_of {A} (o : Result A * FS * list Event) : FS := o.1.2.
Definition events_of {A} (o : Result A * FS * list Event) : list Event := o.2.

(** Every event the computation causes, from any file system, satisfies
    [P]. *)
Definition emits {A} (P : Event → Prop) (m : M A) : Prop :=
  ∀ fs, Forall P (events_of (m fs)).

(** ** File operations as computations *)

(** [path.exists()] *)
Definition exists_ (p : Path) : M bool := λ fs, (Ok (path_exists fs p), fs, []).

(** [path.is_file()] *)
Definition is_file_ (p : Path) : M bool := λ fs, (Ok (is_file fs p), fs, []).

(** [path.read_bytes()] *)
Definition read_bytes (p : Path) : M bytes := λ fs, (read_file fs p, fs, []).

(** [path.mkdir(parents=True, exist_ok=True)] *)
Definition mkdir (p : Path) : M unit :=
  emit (EvMkdir p) ;;; update_fs (λ fs, mkdir_parents fs p).

(** [path.write_bytes(data)] *)
Definition write_bytes (p : Path) (data : bytes) : M unit :=
  update_fs (λ fs, write_file fs p data) ;;; emit (EvWriteFile p).

(** [path.touch(exist_ok=True)]: an existing entry keeps its content. *)
Definition touch (p : Path) : M unit :=
  ex <- exists_ p ;;
  if ex then ret tt else write_bytes p [].

(** [shutil.copy(src, dst)]: into [dst] when it is a directory, else onto
    [dst]; no directory is created. *)
Definition shutil_copy (src dst : Path) : M unit :=
  fs <- get_fs ;;
  let dst := if is_dir fs dst then dst ++ [basename src] else dst in
  if decide (src = dst) then raise SameFileError
  else data <- read_bytes src ;; write_bytes dst data.

(** [path.glob("**/*")], read when the loop starts.  The iterator of
    [pathlib] is lazy; it yields other entries than this list only when
    the loop creates entries below [root] while it runs, which in [merge]
    takes a local channel that is the patch directory or lies below it. *)
Definition glob (root : Path) : M (list Path) := λ fs, (Ok (glob_all fs root), fs, []).

(** ** Python values with a truth value *)

(** [OneOrMoreStrings]: one string, or an iterable of strings. *)
Inductive OneOrMoreStrings :=
  | One (s : string)
  | Many (l : list string).

(** [PathOrString] *)
Inductive PathOrString :=
  | AsString (s : string)
  | AsPath (p : Path).

(** [not patch]: only the empty string is false; a [Path] object is
    always true. *)
Definition path_truthy (p : PathOrString) : bool :=
  match p with
  | AsString s => negb (bool_decide (s = ""))
  | AsPath _ => true
  end.

(** An iterable argument: a sized container (list, tuple, set), which is
    false when empty, or an iterator or generator, which is always true. *)
Inductive PyIterable (A : Type) :=
  | Sized (items : list A)
  | Iterator (items : list A).
Arguments Sized {A} items.
Arguments Iterator {A} items.

Definition iter_items {A} (it : PyIterable A) : list A :=
  match it with Sized l | Iterator l => l end.

(** The truth value of an [Optional[Iterable]] argument. *)
Definition iterable_truthy {A} (x : option (PyIterable A)) : bool :=
  match x with
  | None => false
  | Some (Sized l) => match l with [] => false | _ => true end
  | Some (Iterator _) => true
  end.

(** ** [conda_local/external.py] *)

Module External.
Section external.
Variable E : Env.

Definition PATCH_INSTRUCTIONS : string := "patch_instructions.json".

(** [verify_file(path, record)] *)
Definition verify_file (path : Path) (record : PackageRecord) : M bool :=
  file_bytes <- read_bytes path ;;
  let file_size := Z.of_nat (length file_bytes) in
  let file_hash := sha256_hexdigest E file_bytes in
  ret (bool_decide (pr_sha256 record = file_hash)
       && bool_decide (pr_size record = file_size)).

(** [conda.exports._download(url, path, sha256=..., size=...)]: the call
    is recorded, then the bytes obtained are stored at [path]. *)
Definition _download (url : string) (path : Path)
    (sha256 : option string) (size : option Z) : M unit :=
  emit (EvDownload url path sha256 size) ;;;
  data <- lift (conda_download E url sha256 size) ;;
  write_bytes path data.

(** [download_package(record, destination, verify)] *)
Definition download_package (record : PackageRecord) (destination : Path)
    (verify : bool) : M unit :=
  let sha256_hash := if verify then Some (pr_sha256 record) else None in
  let size := if verify then Some (pr_size record) else None in
  let path := destination ++ [pr_subdir record; pr_fn record] in
  let fetch :=
    mkdir (parent path) ;;;
    _download (pr_url record) path sha256_hash size in
  ex <- exists_ path ;;
  if ex then
    if verify then
      ok <- verify_file path record ;;
      if ok then ret tt
      else emit (EvLogInfo path) ;;; fetch
    else ret tt
  else fetch.

(** [l[0]] *)
Definition first_item {A} (l : list A) : M A :=
  match l with
  | x :: _ => ret x
  | [] => raise IndexError
  end.

(** [requests.get(url)] *)
Definition get (url : string) : M Response :=
  emit (EvHttpGet url) ;;; lift (requests_get E url).

(** [response.raise_for_status()]: client and server error codes raise. *)
Definition raise_for_status (response : Response) : M unit :=
  if bool_decide (400 ≤ status_code response < 600) then raise HTTPError
  else ret tt.

(** [file.seek(0); json.dump(data, file)] on a file opened with ["r+"]:
    the text is written over the start of the old content, which is not
    truncated. *)
Definition write_at_start (p : Path) (text : bytes) : M unit :=
  old <- read_bytes p ;;
  write_bytes p (text ++ drop (length text) old).

Fixpoint append_removed (data : Json) (packages : list PackageRecord) : M Json :=
  match packages with
  | [] => ret data
  | package :: rest =>
      data' <- lift (json_append data "remove" (JStr (pr_fn package))) ;;
      append_removed data' rest
  end.

(** [fetch_patch_instructions(channel, destination, subdir,
    packages_to_remove)] *)
Definition fetch_patch_instructions (channel : string) (destination : Path)
    (subdir : string) (packages_to_remove : option (PyIterable PackageRecord)) :
    M unit :=
  base_url <- first_item (all_channel_urls E [channel] [subdir]) ;;
  let url := urljoin E (base_url +:+ "/") PATCH_INSTRUCTIONS in
  response <- get url ;;
  raise_for_status response ;;;
  mkdir destination ;;;
  let instructions := destination ++ [subdir; PATCH_INSTRUCTIONS] in
  mkdir (parent instructions) ;;;
  write_bytes instructions (content response) ;;;
  if iterable_truthy packages_to_remove then
    emit (EvOpenRW instructions) ;;;
    text <- read_bytes instructions ;;
    data <- lift (json_load E text) ;;
    data <- append_removed data (from_option iter_items [] packages_to_remove) ;;
    write_at_start instructions (json_dump E data)
  else ret tt.

(** [get_default_subdirs()] *)
Definition get_default_subdirs : list string := context_subdirs E.

(** [query_channel(channel, specs, subdirs)], a generator: the
    computation is its body, run when the generator is read. *)
Definition query_channel (channel : string) (specs : list string)
    (subdirs : option (list string)) : M (list PackageRecord) :=
  results <- map_m specs (λ spec,
    fs <- get_fs ;; lift (query_all E fs spec [channel] subdirs)) ;;
  ret (concat results).

(** [iter_channel(channel, subdirs)], a generator *)
Definition iter_channel (channel : string) (subdirs : option (list string)) :
    M (list PackageRecord) :=
  query_channel channel ["*"] subdirs.

(** [setup_channel(path)] *)
Definition setup_channel (path : Path) : M Path :=
  let noarch_repo := path ++ ["noarch"; "repodata.json"] in
  mkdir (parent noarch_repo) ;;;
  touch noarch_repo ;;;
  ret path.

(** [tar.add(source, arcname=arcname)]: the entry, and what lies below
    it when it is a directory. *)
Definition tar_add (source arcname : Path) : M Archive :=
  fs <- get_fs ;;
  match fs !! source with
  | None => raise FileNotFoundError
  | Some n =>
      ret ((arcname, n) ::
           omap (λ p, (λ n', (arcname ++ relative_to p source, n')) <$> fs !! p)
                (glob_all fs source))
  end.

(** [update_index(target, subdirs, silent)]; the archive written in the
    temporary directory is handed to the index builder as its list of
    entries. *)
Definition update_index (target : Path) (subdirs : option (list string))
    (silent : bool) : M unit :=
  let subdirs := match subdirs with None => get_default_subdirs | Some l => l end in
  let patches := (λ subdir, [subdir; PATCH_INSTRUCTIONS]) <$> subdirs in
  patch_generator <-
    match patches with
    | [] => ret None
    | _ =>
        entries <- map_m patches (λ patch, tar_add (target ++ patch) patch) ;;
        ret (Some (concat entries))
    end ;;
  emit (EvUpdateIndex target patch_generator (negb silent)) ;;;
  update_fs (λ fs, conda_build_update_index E fs target patch_generator (negb silent)).
End external.
End External.

(** ** Iterables that are read late *)

(** A Python iterable as a consumer meets it: its items, or the exception
    its producer raises, appear only when the consumer reads it.  The body
    of a generator function is such a producer. *)
Definition Generator (A : Type) : Type := M (list A).

(** Calling a generator function: the generator object is returned and
    none of the body runs, so the call itself cannot raise. *)
Definition call_generator {A} (body : M (list A)) : M (Generator A) := ret body.

(** [iter(l)] for a list already in memory. *)
Definition iter {A} (l : list A) : Generator A := ret l.

(** Reading an iterable to the end. *)
Definition read_all {A} (g : Generator A) : M (list A) := g.

(** [compare_records(left, right)] on iterables: [groupby] reads [left],
    then [right]. *)
Definition compare_records_iter (left right : Generator PackageRecord) :
    M (gset PackageRecord * gset PackageRecord) :=
  l <- read_all left ;;
  r <- read_all right ;;
  ret (compare_records l r).

(** ** [sorted(records, key=lambda rec: rec.fn)] *)

(** A stable insertion: [r] goes after the records whose filename is
    strictly smaller and before the others. *)
Fixpoint insert_by_fn (r : PackageRecord) (l : list PackageRecord) : list PackageRecord :=
  match l with
  | [] => [r]
  | x :: l' =>
      if String.ltb (pr_fn x) (pr_fn r) then x :: insert_by_fn r l'
      else r :: x :: l'
  end.

Definition sorted_by_fn (l : list PackageRecord) : list PackageRecord :=
  foldr insert_by_fn [] l.

(** ** [conda_local/api.py] *)

Module Api.
Section api.
Variable E : Env.

(** [Path(p)] *)
Definition to_path (p : PathOrString) : Path :=
  match p with
  | AsString s => path_of_string E s
  | AsPath p => p
  end.

(** [_ensure_list(items)] *)
Definition _ensure_list (items : OneOrMoreStrings) : list string :=
  match items with
  | One s => [s]
  | Many l => l
  end.

(** Modelled from the spec: [get_current_subdirs] is imported from
    [conda_local.external], which does not define it; it is the
    platform's standard subdir list. *)
Definition get_current_subdirs : list string := context_subdirs E.

(** [_ensure_subdirs(subdirs)] *)
Definition _ensure_subdirs (subdirs : option OneOrMoreStrings) : list string :=
  match subdirs with
  | None => get_current_subdirs
  | Some s => _ensure_list s
  end.

(** [_ensure_local_channel(path)] *)
Definition _ensure_local_channel (path : PathOrString) : M Path :=
  let path := to_path path in
  let noarch_repo := path ++ ["noarch"; "repodata.json"] in
  mkdir (parent noarch_repo) ;;;
  touch noarch_repo ;;;
  ret path.

(** Modelled from the spec: [iter_channels] is imported from
    [conda_local.external], which does not define it; it is the
    full-channel iteration of the external interface, concatenated
    across channels. *)
Definition iter_channels (channels subdirs : list string) : M (list PackageRecord) :=
  results <- map_m channels (λ channel,
    External.iter_channel E channel (Some subdirs)) ;;
  ret (concat results).

(** Modelled from the spec: [download_patch_instructions] is imported
    from [conda_local.external], which does not define it; it resolves
    the channels and the subdir to a base URL, issues the GET for
    [patch_instructions.json], raises on a non-success status and writes
    the body to [destination/subdir/patch_instructions.json], creating
    directories as needed. *)
Definition download_patch_instructions (channels : list string) (destination : Path)
    (subdir : string) : M unit :=
  base_url <- External.first_item (all_channel_urls E channels [subdir]) ;;
  let url := urljoin E (base_url +:+ "/") External.PATCH_INSTRUCTIONS in
  response <- External.get E url ;;
  External.raise_for_status response ;;;
  mkdir destination ;;;
  let instructions := destination ++ [subdir; External.PATCH_INSTRUCTIONS] in
  mkdir (parent instructions) ;;;
  write_bytes instructions (content response).

(** [update_index(local, progress=progress, subdirs=subdirs)] as
    [api.py] writes the call.  The function called is
    [external.update_index(target, subdirs, silent)], which has no
    parameter [progress]: binding the arguments raises [TypeError], and
    the body of [external.update_index] is never entered. *)
Definition update_index (target : Path) (progress : bool) (subdirs : list string) :
    M unit :=
  raise TypeError.

(** [iterate(channels, subdirs=subdirs)], a generator function: this is
    its body. *)
Definition iterate (channels : OneOrMoreStrings) (subdirs : option OneOrMoreStrings) :
    M (list PackageRecord) :=
  let channels := _ensure_list channels in
  let subdirs := _ensure_subdirs subdirs in
  iter_channels channels subdirs.

(** [query(channels, specs, subdirs=subdirs, graph_file=graph_file)] *)
Definition query (channels specs : OneOrMoreStrings)
    (subdirs : option OneOrMoreStrings) (graph_file : option PathOrString) :
    M (list PackageRecord) :=
  let channels := _ensure_list channels in
  let subdirs := _ensure_subdirs subdirs in
  let specs := _ensure_list specs in
  fs <- get_fs ;;
  records <- lift (finder_search E fs channels subdirs specs) ;;
  let _ := to_path <$> graph_file in
  ret records.

(** [diff(local, upstream, specs, subdirs)] *)
Definition diff (local : PathOrString) (upstream specs : OneOrMoreStrings)
    (subdirs : option OneOrMoreStrings) :
    M (gset PackageRecord * gset PackageRecord) :=
  let local := to_path local in
  let upstream := _ensure_list upstream in
  let subdirs := _ensure_subdirs subdirs in
  let specs := _ensure_list specs in
  local_records <-
    try_except
      (call_generator
         (iterate (One (as_uri E (resolve E local))) (Some (Many subdirs))))
      (λ e, match e with
            | UnavailableInvalidChannel => ret (iter [])
            | _ => raise e
            end) ;;
  upstream_records <- query (Many upstream) (Many specs) (Some (Many subdirs)) None ;;
  compared <- compare_records_iter local_records (iter upstream_records) ;;
  let '(removed, added) := compared in
  ret (added, removed).

(** [merge(local, patch, index=index, progress=progress)]; the spinner only
    displays and is left out. *)
Definition merge (local patch : PathOrString) (index progress : bool) : M unit :=
  let patch := to_path patch in
  let local := to_path local in
  files <- glob patch ;;
  for_each files (λ file,
    regular <- is_file_ file ;;
    if regular then shutil_copy file (local ++ relative_to file patch)
    else ret tt) ;;;
  emit (EvPrint "Copying patch: done") ;;;
  if index then
    update_index local progress [] ;;;
    emit (EvPrint "Updating index: done")
  else ret tt.

(** [sync(channels, local, specs, subdirs=..., index=..., verify=...,
    patch=..., progress=...)]; the spinner and the progress bars only
    display and are left out. *)
Definition sync (channels : OneOrMoreStrings) (local : PathOrString)
    (specs : OneOrMoreStrings) (subdirs : option OneOrMoreStrings)
    (index verify : bool) (patch : PathOrString) (progress : bool) : M unit :=
  let channels := _ensure_list channels in
  local <- _ensure_local_channel local ;;
  let subdirs := _ensure_subdirs subdirs in
  let destination := if negb (path_truthy patch) then local else to_path patch in
  mkdir destination ;;;
  compared <- diff (AsPath local) (Many channels) specs (Some (Many subdirs)) ;;
  let added_records := compared.1 in
  for_each subdirs (λ subdir,
    download_patch_instructions channels destination subdir) ;;;
  emit (EvPrint "Downloading patches instructions: done") ;;;
  let records := sorted_by_fn (elements added_records) in
  for_each records (λ record,
    External.download_package E record destination verify) ;;;
  emit (EvPrint "Downloading packages: done") ;;;
  if index && negb (path_truthy patch) then
    update_index local progress subdirs ;;;
    emit (EvPrint "Updating index: done")
  else ret tt.
End api.
End Api.

(** Reading the local mirror: the body of the generator [iterate] with the
    arguments [diff] calls it with. *)
Definition local_records (E : Env) (local : PathOrString)
    (subdirs : option OneOrMoreStrings) : M (list PackageRecord) :=
  Api.iterate E (One (as_uri E (resolve E (Api.to_path E local))))
    (Some (Many (Api._ensure_subdirs E subdirs))).

(** ** What [sync] is allowed to do *)

(** The events [sync] may cause when it works for the mirror [mirror] and
    writes into [destination]: files are written at the bootstrap stub of
    the mirror or two levels below the destination, downloads go two
    levels below the destination, and the index builder does not run. *)
Definition sync_event_ok (mirror destination : Path) (ev : Event) : Prop :=
  match ev with
  | EvWriteFile p =>
      p = mirror ++ ["noarch"; "repodata.json"]
      ∨ ∃ subdir name : string, p = destination ++ [subdir; name]
  | EvDownload _ p _ _ => ∃ subdir name : string, p = destination ++ [subdir; name]
  | EvUpdateIndex _ _ _ => False
  | _ => True
  end.

(** [m'] runs as [m] does, except that it raises [e0] where [m] returns. *)
Definition raises_at_end (e0 : exn) (m' m : M unit) : Prop :=
  ∀ fs : FS,
    m' fs = match m fs with
            | (Ok _, fs1, t1) => (Err e0, fs1, t1)
            | (Err e, fs1, t1) => (Err e, fs1, t1)
            end.

(** The computation changes the file system only at the paths [Q]. *)
Definition changes_only {A} (Q : Path → Prop) (m : M A) : Prop :=
  ∀ (fs : FS) (q : Path), ¬ Q q → fs_of (m fs) !! q = fs !! q.

(** The computation never removes a directory. *)
Definition keeps_dirs {A} (m : M A) : Prop :=
  ∀ (fs : FS) (q : Path), is_dir fs q = true → is_dir (fs_of (m fs)) q = true.

(** ** The order of downloads *)

(** The filenames of the downloads among the events, in the order the
    downloads happen. *)
Definition download_names (events : list Event) : list string :=
  omap (λ ev, match ev with
              | EvDownload _ target _ _ => Some (basename target)
              | _ => None
              end) events.

(** [a] does not sort after [b]. *)
Definition fn_le (a b : string) : Prop := String.ltb b a = false.

(** The event is not a download. *)
Definition no_download (ev : Event) : Prop :=
  match ev with
  | EvDownload _ _ _ _ => False
  | _ => True
  end.

(** ** A small world to run the program in *)

Module Demo.
Definition text (s : string) : bytes := String.list_byte_of_string s.

Definition pkg_a : PackageRecord :=
  mkRecord "linux-64" "alpha" "1.0" "0" 0 "alpha-1.0-0.tar.bz2"
           "https://up/linux-64/alpha-1.0-0.tar.bz2" "aa" 5 "up".

Definition pkg_b : PackageRecord :=
  mkRecord "noarch" "beta" "2.1" "py_0" 0 "beta-2.1-py_0.tar.bz2"
           "https://up/noarch/beta-2.1-py_0.tar.bz2" "bb" 4 "up".

(** A record whose checksum and size are those of the bytes [env]
    delivers for it. *)
Definition pkg_c : PackageRecord :=
  mkRecord "noarch" "gamma" "0.3" "0" 0 "c.tar.bz2"
           "https://up/noarch/c.tar.bz2" "aa" 27 "up".

(** [pkg_a] as another channel serves it. *)
Definition pkg_a_mirror : PackageRecord :=
  mkRecord "linux-64" "alpha" "1.0" "0" 0 "alpha-1.0-0.tar.bz2"
           "file:///mirror/linux-64/alpha-1.0-0.tar.bz2" "a0" 6 "mirror".

Definition remove_nothing : Json := JObj [("remove", JArr [])].

(** Upstream serves [pkg_b] and [pkg_a]; the channel [file://gone]
    cannot be read; every other channel is empty.  Every GET answers 200
    with the same document. *)
Definition env : Env := {|
  query_all := λ _ _ channels _,
    if decide (channels = ["file://gone"]) then Err UnavailableInvalidChannel
    else if decide (channels = ["file://mirror"]) then Ok [pkg_a_mirror]
    else Ok [];
  finder_search := λ _ _ _ _, Ok [pkg_b; pkg_a];
  context_subdirs := ["linux-64"; "noarch"];
  all_channel_urls := λ channels subdirs,
    channel ← channels; subdir ← subdirs; [channel +:+ "/" +:+ subdir];
  urljoin := λ base name, base +:+ name;
  requests_get := λ _, Ok (mkResponse 200 (text "{remove: []}"));
  conda_download := λ url _ _, Ok (text url);
  sha256_hexdigest := λ _, "aa";
  json_load := λ _, Ok remove_nothing;
  json_dump := λ _, text "{remove:[]}";
  conda_build_update_index := λ fs _ _ _, Ok fs;
  path_of_string := λ s, if decide (s = "") then [] else [s];
  resolve := λ p, p;
  as_uri := λ p, "file://" +:+ String.concat "/" p;
|}.

(** The same world, except that every GET answers 404. *)
Definition env_404 : Env := {|
  query_all := query_all env;
  finder_search := finder_search env;
  context_subdirs := context_subdirs env;
  all_channel_urls := all_channel_urls env;
  urljoin := urljoin env;
  requests_get := λ _, Ok (mkResponse 404 []);
  conda_download := conda_download env;
  sha256_hexdigest := sha256_hexdigest env;
  json_load := json_load env;
  json_dump := json_dump env;
  conda_build_update_index := conda_build_update_index env;
  path_of_string := path_of_string env;
  resolve := resolve env;
  as_uri := as_uri env;
|}.

(** A mirror with only the bootstrap stub, and a patch directory with
    one subdir and its patch instructions. *)
Definition mirror_and_patch : FS :=
  list_to_map [
    (["mirror"], Dir);
    (["mirror"; "noarch"], Dir);
    (["mirror"; "noarch"; "repodata.json"], File []);
    (["mirror"; "noarch"; "patch_instructions.json"], File (text "{remove: []}"));
    (["patch"], Dir);
    (["patch"; "linux-64"], Dir);
    (["patch"; "linux-64"; "patch_instructions.json"], File (text "{remove: []}"))
  ].

(** A mirror with its noarch patch instructions, and a patch directory
    that brings new ones for the same subdir. *)
Definition mirror_and_noarch_patch : FS :=
  list_to_map [
    (["mirror"], Dir);
    (["mirror"; "noarch"], Dir);
    (["mirror"; "noarch"; "repodata.json"], File []);
    (["mirror"; "noarch"; "patch_instructions.json"], File (text "old"));
    (["patch"], Dir);
    (["patch"; "noarch"], Dir);
    (["patch"; "noarch"; "patch_instructions.json"], File (text "new"))
  ].

(** A mirror that already holds [pkg_a], with the content [env] hashes
    to its checksum. *)
Definition mirror_with_a : FS :=
  list_to_map [
    (["mirror"], Dir);
    (["mirror"; "linux-64"], Dir);
    (["mirror"; "linux-64"; "alpha-1.0-0.tar.bz2"], File (text "alpha"))
  ].
End Demo.

(** ** Further notions for the properties below *)

(** The computation leaves the file system as it is and causes no event. *)
Definition reads_only {A} (m : M A) : Prop :=
  ∀ fs : FS, fs_of (m fs) = fs ∧ events_of (m fs) = [].

(** The keys of the records of a list. *)
Definition record_keys (records : list PackageRecord) : gset RecordKey :=
  list_to_set (no_channel_key <$> records).

(** ** Copying a patch *)

(** Neither path is the other or one of its ancestors. *)
Definition apart (a b : Path) : bool :=
  negb (bool_decide (take (length a) b = a)) && negb (bool_decide (take (length b) a = b)).

(** Nothing lies below a regular file. *)
Definition files_are_leaves (fs : FS) : bool :=
  forallb (λ p, negb (is_file fs p) || forallb (λ q, negb (below p q)) (map_to_list fs).*1)
          (map_to_list fs).*1.

(** Where [merge] has [shutil.copy] put [file] of the patch: into the
    directory found at its place in the local channel, else at that
    place. *)
Definition copy_target (fs : FS) (local patch file : Path) : Path :=
  let dst := local ++ relative_to file patch in
  if is_dir fs dst then dst ++ [basename file] else dst.

(** * Facts *)

(** ** The grouping utility *)

Section grouping_facts.
Context {K V : Type} `{Countable K}.
Implicit Types (g : Grouping.t (K:=K) (V:=V)).

Lemma grouping_keys_add k v g k' :
  k' ∈ Grouping.keys (Grouping.add k v g) ↔ k' = k ∨ k' ∈ Grouping.keys g.
Proof.
  unfold Grouping.keys. induction g as [|[k0 b] g IH]; simpl.
  - set_solver.
  - case_decide; subst; simpl; set_solver.
Qed.

Lemma grouping_getitem_add k v g k' x :
  x ∈ Grouping.getitem (Grouping.add k v g) k' ↔ (k' = k ∧ x = v) ∨ x ∈ Grouping.getitem g k'.
Proof.
  induction g as [|[k0 b] g IH]; simpl.
  - case_decide; set_solver.
  - destruct (decide (k = k0)) as [->|Hne]; simpl.
    + case_decide; subst; [rewrite elem_of_app|]; set_solver.
    + case_decide; subst; [|done]. split; [auto|]. intros [[? _]|?]; [congruence|done].
Qed.

Lemma grouping_keys_foldl (key : V → K) items g k :
  k ∈ Grouping.keys (foldl (λ g x, Grouping.add (key x) x g) g items)
  ↔ k ∈ Grouping.keys g ∨ ∃ x, x ∈ items ∧ key x = k.
Proof.
  revert g. induction items as [|y items IH]; intros g; simpl.
  - set_solver.
  - rewrite IH, grouping_keys_add. set_solver.
Qed.

Lemma grouping_getitem_foldl (key : V → K) items g k x :
  x ∈ Grouping.getitem (foldl (λ g x, Grouping.add (key x) x g) g items) k
  ↔ x ∈ Grouping.getitem g k ∨ (x ∈ items ∧ key x = k).
Proof.
  revert g. induction items as [|y items IH]; intros g; simpl.
  - set_solver.
  - rewrite IH, grouping_getitem_add. set_solver.
Qed.

Lemma grouping_keys_groupby (key : V → K) items k :
  k ∈ Grouping.keys (Grouping.groupby items key) ↔ ∃ x, x ∈ items ∧ key x = k.
Proof. unfold Grouping.groupby. rewrite grouping_keys_foldl. set_solver. Qed.

Lemma grouping_getitem_groupby (key : V → K) items k x :
  x ∈ Grouping.getitem (Grouping.groupby items key) k ↔ x ∈ items ∧ key x = k.
Proof. unfold Grouping.groupby. rewrite grouping_getitem_foldl. set_solver. Qed.
End grouping_facts.

(** ** [compare_records] *)

Lemma elem_of_only_in (a b : list PackageRecord) r :
  r ∈ only_in (Grouping.groupby a no_channel_key) (Grouping.groupby b no_channel_key)
  ↔ r ∈ a ∧ ∀ r', r' ∈ b → no_channel_key r' ≠ no_channel_key r.
Proof.
  unfold only_in. rewrite elem_of_list_to_set, list_elem_of_bind. split.
  - intros (k & Hr & Hk). apply elem_of_elements, elem_of_difference in Hk as [_ Hk].
    apply grouping_getitem_groupby in Hr as [Hr <-].
    split; [done|]. intros r' Hr' Heq. apply Hk.
    apply grouping_keys_groupby. eauto.
  - intros [Hr Hk]. exists (no_channel_key r). split.
    + by apply grouping_getitem_groupby.
    + apply elem_of_elements, elem_of_difference. split.
      * apply grouping_keys_groupby. eauto.
      * intros (r' & Hr' & Heq)%grouping_keys_groupby. by eapply Hk.
Qed.



(** ** Running computations *)

Section monad_facts.
Context {A B : Type}.
Implicit Types (m : M A) (f : A → M B) (fs : FS).

Lemma result_bind m f fs :
  result_of (bind m f fs) =
  match result_of (m fs) with
  | Ok a => result_of (f a (fs_of (m fs)))
  | Err e => Err e
  end.
Proof.
  unfold bind, result_of, fs_of. destruct (m fs) as [[[e|a] fs1] t1]; simpl; [done|].
  by destruct (f a fs1) as [[r fs2] t2].
Qed.

Lemma fs_bind m f fs :
  fs_of (bind m f fs) =
  match result_of (m fs) with
  | Ok a => fs_of (f a (fs_of (m fs)))
  | Err e => fs_of (m fs)
  end.
Proof.
  unfold bind, result_of, fs_of. destruct (m fs) as [[[e|a] fs1] t1]; simpl; [done|].
  by destruct (f a fs1) as [[r fs2] t2].
Qed.

Lemma events_bind m f fs :
  events_of (bind m f fs) =
  events_of (m fs) ++
  match result_of (m fs) with
  | Ok a => events_of (f a (fs_of (m fs)))
  | Err e => []
  end.
Proof.
  unfold bind, result_of, fs_of, events_of.
  destruct (m fs) as [[[e|a] fs1] t1]; simpl; [by rewrite app_nil_r|].
  by destruct (f a fs1) as [[r fs2] t2].
Qed.

Lemma bind_Err m f fs e :
  result_of (m fs) = Err e →
  result_of (bind m f fs) = Err e ∧ fs_of (bind m f fs) = fs_of (m fs)
  ∧ events_of (bind m f fs) = events_of (m fs).
Proof.
  intros Hm. rewrite result_bind, fs_bind, events_bind, Hm. by rewrite app_nil_r.
Qed.

Lemma bind_Ok_inv m f fs b :
  result_of (bind m f fs) = Ok b →
  ∃ a, result_of (m fs) = Ok a ∧ result_of (f a (fs_of (m fs))) = Ok b.
Proof.
  rewrite result_bind. destruct (result_of (m fs)) as [e|a]; [done|]. eauto.
Qed.

Lemma bind_Ok_fs m f fs a :
  result_of (m fs) = Ok a → fs_of (bind m f fs) = fs_of (f a (fs_of (m fs))).
Proof. intros Hm. by rewrite fs_bind, Hm. Qed.

Lemma elem_of_events_bind_l m f fs ev :
  ev ∈ events_of (m fs) → ev ∈ events_of (bind m f fs).
Proof. rewrite events_bind, elem_of_app. auto. Qed.

Lemma elem_of_events_bind_r m f fs a ev :
  result_of (m fs) = Ok a →
  ev ∈ events_of (f a (fs_of (m fs))) → ev ∈ events_of (bind m f fs).
Proof. intros Hm. rewrite events_bind, Hm, elem_of_app. auto. Qed.
End monad_facts.

(** ** Properties of every event a computation causes *)

Section emits_facts.
Context (P : Event → Prop).

Lemma emits_ret {A} (a : A) : emits P (ret a).
Proof. intros fs. constructor. Qed.

Lemma emits_raise {A} e : emits P (raise (A:=A) e).
Proof. intros fs. constructor. Qed.

Lemma emits_lift {A} (r : Result A) : emits P (lift r).
Proof. intros fs. constructor. Qed.

Lemma emits_get_fs : emits P get_fs.
Proof. intros fs. constructor. Qed.

Lemma emits_update_fs f : emits P (update_fs f).
Proof. intros fs. unfold update_fs, events_of. destruct (f fs); constructor. Qed.

Lemma emits_emit ev : P ev → emits P (emit ev).
Proof. intros Hev fs. by repeat constructor. Qed.

Lemma emits_bind {A B} (m : M A) (f : A → M B) :
  emits P m → (∀ a, emits P (f a)) → emits P (bind m f).
Proof.
  intros Hm Hf fs. rewrite events_bind. apply Forall_app. split; [apply Hm|].
  destruct (result_of (m fs)); [constructor|apply Hf].
Qed.

Lemma emits_try_except {A} (m : M A) handler :
  emits P m → (∀ e, emits P (handler e)) → emits P (try_except m handler).
Proof.
  intros Hm Hh fs. specialize (Hm fs). unfold try_except, events_of in *.
  destruct (m fs) as [[[e|a] fs1] t1]; simpl in *; [|done].
  specialize (Hh e fs1). unfold events_of in Hh.
  destruct (handler e fs1) as [[r fs2] t2]. apply Forall_app. done.
Qed.

Lemma emits_for_each {A} (l : list A) body :
  (∀ x, x ∈ l → emits P (body x)) → emits P (for_each l body).
Proof.
  induction l as [|x l IH]; intros Hbody; simpl.
  - apply emits_ret.
  - apply emits_bind; [apply Hbody; left|]. intros _. apply IH.
    intros y Hy. apply Hbody. by right.
Qed.

Lemma emits_map_m {A B} (l : list A) (body : A → M B) :
  (∀ x, x ∈ l → emits P (body x)) → emits P (map_m l body).
Proof.
  induction l as [|x l IH]; intros Hbody; simpl.
  - apply emits_ret.
  - apply emits_bind; [apply Hbody; left|]. intros y.
    apply emits_bind; [|intros ys; apply emits_ret].
    apply IH. intros z Hz. apply Hbody. by right.
Qed.

Lemma emits_exists_ p : emits P (exists_ p).
Proof. intros fs. constructor. Qed.

Lemma emits_is_file_ p : emits P (is_file_ p).
Proof. intros fs. constructor. Qed.

Lemma emits_read_bytes p : emits P (read_bytes p).
Proof. intros fs. constructor. Qed.

Lemma emits_glob p : emits P (glob p).
Proof. intros fs. constructor. Qed.

Lemma emits_mkdir p : P (EvMkdir p) → emits P (mkdir p).
Proof.
  intros Hp. apply emits_bind; [by apply emits_emit|]. intros _. apply emits_update_fs.
Qed.

Lemma emits_write_bytes p data : P (EvWriteFile p) → emits P (write_bytes p data).
Proof.
  intros Hp. apply emits_bind; [apply emits_update_fs|]. intros _. by apply emits_emit.
Qed.

Lemma emits_touch p : P (EvWriteFile p) → emits P (touch p).
Proof.
  intros Hp. apply emits_bind; [apply emits_exists_|].
  intros []; [apply emits_ret|by apply emits_write_bytes].
Qed.
End emits_facts.

Create HintDb emits.

#[global] Hint Resolve emits_ret emits_raise emits_lift emits_get_fs emits_update_fs
  emits_exists_ emits_is_file_ emits_read_bytes emits_glob : emits.

(** Membership in the two sets [compare_records] returns. *)
Lemma compare_records_by_key_aux (left right : list PackageRecord) :
  (∀ r, r ∈ fst (compare_records left right)
        ↔ r ∈ left ∧ no_channel_key r ∉ no_channel_key <$> right)
  ∧ (∀ r, r ∈ snd (compare_records left right)
          ↔ r ∈ right ∧ no_channel_key r ∉ no_channel_key <$> left).
Proof.
  assert (Hkey : ∀ (l : list PackageRecord) r,
    (∀ r', r' ∈ l → no_channel_key r' ≠ no_channel_key r)
    ↔ no_channel_key r ∉ no_channel_key <$> l).
  { intros l r. rewrite list_elem_of_fmap. split.
    - intros Hl (r' & Heq & Hr'). by apply (Hl r' Hr').
    - intros Hl r' Hr' Heq. apply Hl. by exists r'. }
  split; intros r; unfold compare_records; simpl; by rewrite elem_of_only_in, Hkey.
Qed.

(** ** [compare_records] compares by the five-field key *)

(** Two records have the same key exactly when they agree on the five
    fields. *)
Lemma no_channel_key_eq (a b : PackageRecord) :
  no_channel_key a = no_channel_key b
  ↔ pr_subdir a = pr_subdir b ∧ pr_name a = pr_name b ∧ pr_version a = pr_version b
    ∧ pr_build a = pr_build b ∧ pr_build_number a = pr_build_number b.
Proof.
  unfold no_channel_key. split.
  - by intros [= -> -> -> -> ->].
  - by intros (-> & -> & -> & -> & ->).
Qed.

(** C2.  [compare_records(left, right)] compares records by subdir, name,
    version, build and build number only: a record is in the first set
    exactly when it is in [left] and no record of [right] agrees with it
    on these five fields, in the second set exactly when it is in [right]
    and no record of [left] agrees with it on them; so two records that
    agree on the five fields, one on each side, are in neither set,
    whatever their channel, URL, checksum, size or filename. *)
Theorem compare_records_by_key (left right : list PackageRecord) :
  (∀ r, r ∈ fst (compare_records left right)
        ↔ r ∈ left
          ∧ ∀ r', r' ∈ right →
              ¬ (pr_subdir r' = pr_subdir r ∧ pr_name r' = pr_name r
                 ∧ pr_version r' = pr_version r ∧ pr_build r' = pr_build r
                 ∧ pr_build_number r' = pr_build_number r))
  ∧ (∀ r, r ∈ snd (compare_records left right)
          ↔ r ∈ right
            ∧ ∀ r', r' ∈ left →
                ¬ (pr_subdir r' = pr_subdir r ∧ pr_name r' = pr_name r
                   ∧ pr_version r' = pr_version r ∧ pr_build r' = pr_build r
                   ∧ pr_build_number r' = pr_build_number r))
  ∧ (∀ a b, a ∈ left → b ∈ right →
       pr_subdir a = pr_subdir b → pr_name a = pr_name b →
       pr_version a = pr_version b → pr_build a = pr_build b →
       pr_build_number a = pr_build_number b →
       (a ∉ fst (compare_records left right)) ∧ (a ∉ snd (compare_records left right))
       ∧ (b ∉ fst (compare_records left right)) ∧ (b ∉ snd (compare_records left right))).
Proof.
  assert (H1 : ∀ r, r ∈ fst (compare_records left right)
        ↔ r ∈ left
          ∧ ∀ r', r' ∈ right →
              ¬ (pr_subdir r' = pr_subdir r ∧ pr_name r' = pr_name r
                 ∧ pr_version r' = pr_version r ∧ pr_build r' = pr_build r
                 ∧ pr_build_number r' = pr_build_number r)).
  { intros r. unfold compare_records; simpl. rewrite elem_of_only_in.
    split; intros [Hr Hk]; (split; [done|]); intros r' Hr'; specialize (Hk r' Hr');
      by rewrite no_channel_key_eq in *. }
  assert (H2 : ∀ r, r ∈ snd (compare_records left right)
        ↔ r ∈ right
          ∧ ∀ r', r' ∈ left →
              ¬ (pr_subdir r' = pr_subdir r ∧ pr_name r' = pr_name r
                 ∧ pr_version r' = pr_version r ∧ pr_build r' = pr_build r
                 ∧ pr_build_number r' = pr_build_number r)).
  { intros r. unfold compare_records; simpl. rewrite elem_of_only_in.
    split; intros [Hr Hk]; (split; [done|]); intros r' Hr'; specialize (Hk r' Hr');
      by rewrite no_channel_key_eq in *. }
  split; [done|]. split; [done|].
  intros a b Ha Hb Hsubdir Hname Hversion Hbuild Hnumber. rewrite !H1, !H2.
  split; [|split; [|split]].
  - intros [_ Hk]. by apply (Hk b Hb).
  - intros [_ Hk]. by apply (Hk a Ha).
  - intros [_ Hk]. by apply (Hk b Hb).
  - intros [_ Hk]. by apply (Hk a Ha).
Qed.

Lemma compare_records_by_key_witness :
  (Demo.pkg_a ∉ fst (compare_records [Demo.pkg_a; Demo.pkg_b] [Demo.pkg_a_mirror]))
  ∧ (Demo.pkg_a ∉ snd (compare_records [Demo.pkg_a; Demo.pkg_b] [Demo.pkg_a_mirror]))
  ∧ (Demo.pkg_a_mirror
       ∉ fst (compare_records [Demo.pkg_a; Demo.pkg_b] [Demo.pkg_a_mirror]))
  ∧ (Demo.pkg_a_mirror
       ∉ snd (compare_records [Demo.pkg_a; Demo.pkg_b] [Demo.pkg_a_mirror])).
Proof.
  apply (proj2 (proj2 (compare_records_by_key [Demo.pkg_a; Demo.pkg_b]
                         [Demo.pkg_a_mirror])) Demo.pkg_a Demo.pkg_a_mirror);
    first [reflexivity | set_solver].
Defined.

(** The same package served by two channels: neither copy is reported. *)
Example compare_records_two_channels :
  compare_records [Demo.pkg_a] [Demo.pkg_a_mirror] = (∅, ∅).
Proof. by vm_compute. Qed.

(** ** Singular and plural arguments *)

(** C9.  A bare string given as [channels], [subdirs] or [specs] to
    [diff], [iterate], [query] or [sync] gives the computation the
    one-element list gives; the string becomes the list holding it and is
    never split into characters.  ([merge] takes none of the three.) *)
Theorem singular_is_one_element_list (E : Env) (s : string) :
  Api._ensure_list (One s) = [s]
  ∧ Api._ensure_subdirs E (Some (One s)) = [s]
  ∧ (∀ local specs subdirs,
       Api.diff E local (One s) specs subdirs = Api.diff E local (Many [s]) specs subdirs)
  ∧ (∀ local upstream subdirs,
       Api.diff E local upstream (One s) subdirs = Api.diff E local upstream (Many [s]) subdirs)
  ∧ (∀ local upstream specs,
       Api.diff E local upstream specs (Some (One s))
       = Api.diff E local upstream specs (Some (Many [s])))
  ∧ (∀ subdirs, Api.iterate E (One s) subdirs = Api.iterate E (Many [s]) subdirs)
  ∧ (∀ channels,
       Api.iterate E channels (Some (One s)) = Api.iterate E channels (Some (Many [s])))
  ∧ (∀ specs subdirs graph_file,
       Api.query E (One s) specs subdirs graph_file
       = Api.query E (Many [s]) specs subdirs graph_file)
  ∧ (∀ channels subdirs graph_file,
       Api.query E channels (One s) subdirs graph_file
       = Api.query E channels (Many [s]) subdirs graph_file)
  ∧ (∀ channels specs graph_file,
       Api.query E channels specs (Some (One s)) graph_file
       = Api.query E channels specs (Some (Many [s])) graph_file)
  ∧ (∀ local specs subdirs index verify patch progress,
       Api.sync E (One s) local specs subdirs index verify patch progress
       = Api.sync E (Many [s]) local specs subdirs index verify patch progress)
  ∧ (∀ channels local subdirs index verify patch progress,
       Api.sync E channels local (One s) subdirs index verify patch progress
       = Api.sync E channels local (Many [s]) subdirs index verify patch progress)
  ∧ (∀ channels local specs index verify patch progress,
       Api.sync E channels local specs (Some (One s)) index verify patch progress
       = Api.sync E channels local specs (Some (Many [s])) index verify patch progress).
Proof. repeat split. Qed.

(** ** The file system *)

Section fs_facts.
Implicit Types (fs : FS) (p q d todo : Path) (n : node).

Lemma parent_app2 d (a b : string) : parent (d ++ [a; b]) = d ++ [a].
Proof.
  unfold parent. change [a; b] with ([a] ++ [b]). rewrite app_assoc.
  apply removelast_last.
Qed.

Lemma is_dir_lookup fs p : fs !! p = Some Dir → is_dir fs p = true.
Proof. intros Hp. unfold is_dir. rewrite Hp. by destruct p. Qed.

Lemma is_dir_inv fs p : is_dir fs p = true → p = [] ∨ fs !! p = Some Dir.
Proof.
  unfold is_dir. destruct p as [|c p]; [by left|].
  destruct (fs !! (c :: p)) as [[]|]; intros; by try right.
Qed.

Lemma mkdir_from_extends fs d todo fs' :
  mkdir_from fs d todo = Ok fs' → ∀ q n, fs !! q = Some n → fs' !! q = Some n.
Proof.
  revert fs d. induction todo as [|c rest IH]; intros fs d; simpl.
  - by intros [= <-].
  - destruct (fs !! (d ++ [c])) as [[data|]|] eqn:Hp; [done| |].
    + apply IH.
    + intros Hrun q n Hq. apply (IH _ _ Hrun).
      rewrite lookup_insert_ne; [done|]. intros <-. congruence.
Qed.

Lemma mkdir_from_longer fs d todo fs' :
  mkdir_from fs d todo = Ok fs' →
  ∀ q, (length d + length todo < length q)%nat → fs' !! q = fs !! q.
Proof.
  revert fs d. induction todo as [|c rest IH]; intros fs d; simpl.
  - by intros [= <-].
  - destruct (fs !! (d ++ [c])) as [[data|]|] eqn:Hp; [done| |].
    + intros Hrun q Hq. apply (IH _ _ Hrun). rewrite length_app. simpl. lia.
    + intros Hrun q Hq. rewrite (IH _ _ Hrun).
      * apply lookup_insert_ne. intros <-. rewrite length_app in Hq. simpl in Hq. lia.
      * rewrite length_app. simpl. lia.
Qed.

Lemma mkdir_from_is_dir fs d todo fs' :
  is_dir fs d = true → mkdir_from fs d todo = Ok fs' → is_dir fs' (d ++ todo) = true.
Proof.
  revert fs d. induction todo as [|c rest IH]; intros fs d Hd; simpl.
  - intros [= <-]. by rewrite app_nil_r.
  - replace (d ++ c :: rest) with ((d ++ [c]) ++ rest) by (by rewrite <-app_assoc).
    destruct (fs !! (d ++ [c])) as [[data|]|] eqn:Hp; [done| |].
    + apply IH. by apply is_dir_lookup.
    + apply IH. apply is_dir_lookup. apply lookup_insert_eq.
Qed.

Lemma mkdir_parents_is_dir fs p fs' :
  mkdir_parents fs p = Ok fs' → is_dir fs' p = true.
Proof. intros Hrun. by apply (mkdir_from_is_dir fs [] p fs'). Qed.

Lemma mkdir_parents_keeps_dirs fs p fs' q :
  mkdir_parents fs p = Ok fs' → is_dir fs q = true → is_dir fs' q = true.
Proof.
  intros Hrun [->|Hq]%is_dir_inv; [done|].
  apply is_dir_lookup. by apply (mkdir_from_extends _ _ _ _ Hrun).
Qed.

Lemma write_file_keeps_dirs fs p data fs' q :
  write_file fs p data = Ok fs' → is_dir fs q = true → is_dir fs' q = true.
Proof.
  unfold write_file. destruct (is_dir fs p) eqn:Hp; [done|].
  destruct (is_dir fs (parent p)); [|by destruct (is_file fs (parent p))].
  intros [= <-] Hq. destruct (is_dir_inv _ _ Hq) as [->|Hq']; [done|].
  apply is_dir_lookup. rewrite lookup_insert_ne; [done|]. intros <-. congruence.
Qed.

Lemma write_file_lookup fs p data fs' :
  write_file fs p data = Ok fs' → fs' !! p = Some (File data).
Proof.
  unfold write_file. destruct (is_dir fs p); [done|].
  destruct (is_dir fs (parent p)); [|by destruct (is_file fs (parent p))].
  intros [= <-]. apply lookup_insert_eq.
Qed.
End fs_facts.

(** ** Paths below one another *)

Section path_facts.
Implicit Types (p q root a b : Path).

Lemma below_relative root p :
  below root p = true → p = root ++ relative_to p root ∧ relative_to p root ≠ [].
Proof.
  unfold below, relative_to. intros [Hpre Hlen]%andb_true_iff.
  apply bool_decide_eq_true in Hpre, Hlen. split.
  - rewrite <-Hpre at 1. by rewrite take_drop.
  - intros Hnil. apply (f_equal length) in Hnil. rewrite length_drop in Hnil.
    simpl in Hnil. lia.
Qed.

Lemma below_app root (x : Path) : x ≠ [] → below root (root ++ x) = true.
Proof.
  intros Hx. unfold below. apply andb_true_iff. split; apply bool_decide_eq_true.
  - apply take_app_length.
  - rewrite length_app. destruct x; [done|]. simpl. lia.
Qed.

Lemma below_snoc p (c : string) : below p (p ++ [c]) = true.
Proof. by apply below_app. Qed.

(** Nothing at or under [a] is below [b] when the two lie apart. *)
Lemma apart_not_below a b (x : Path) : apart a b = true → below b (a ++ x) = false.
Proof.
  unfold apart. intros [H1 H2]%andb_true_iff.
  apply negb_true_iff, bool_decide_eq_false in H1, H2.
  unfold below. apply andb_false_iff. left. apply bool_decide_eq_false. intros Heq.
  destruct (decide (length b ≤ length a)%nat) as [Hle|Hgt].
  - rewrite take_app_le in Heq by done. done.
  - apply H1.
    assert (take (length a) b = take (length a) (take (length b) (a ++ x))) as ->
      by (by rewrite Heq).
    rewrite take_take, Nat.min_l by lia. apply take_app_length.
Qed.

(** What is below [root] and at or above [root/c1/c2]. *)
Lemma below_prefix_two root (c1 c2 : string) q :
  below root q = true → q `prefix_of` root ++ [c1; c2] →
  q = root ++ [c1] ∨ q = root ++ [c1; c2].
Proof.
  intros [Hq Hx]%below_relative [k Hk]. rewrite Hq in Hk |- *.
  rewrite <-app_assoc in Hk. apply app_inv_head in Hk.
  destruct (relative_to q root) as [|x1 [|x2 [|x3 x]]]; [done|..];
    simpl in Hk; simplify_eq; auto.
Qed.

(** Nothing below [b] is at or above a path under [a] when the two lie
    apart. *)
Lemma apart_not_prefix a b (x q : Path) :
  apart a b = true → below b q = true → ¬ q `prefix_of` a ++ x.
Proof.
  intros Hapart [Hq Hx]%below_relative [k Hk].
  pose proof (apart_not_below a b x Hapart) as Hnot.
  rewrite Hk, Hq, <-app_assoc in Hnot. rewrite below_app in Hnot; [done|].
  by destruct (relative_to q b).
Qed.
End path_facts.

(** ** [download_package] *)

Section download_facts.
Variable E : Env.
Implicit Types (fs : FS) (destination : Path) (record : PackageRecord).

Lemma is_dir_file fs (p : Path) data :
  p ≠ [] → fs !! p = Some (File data) → is_dir fs p = false.
Proof. intros Hne Hp. unfold is_dir. rewrite Hp. by destruct p. Qed.

Lemma is_dir_same fs fs' (p : Path) : fs' !! p = fs !! p → is_dir fs' p = is_dir fs p.
Proof. intros Hp. unfold is_dir. by rewrite Hp. Qed.

Lemma target_not_empty destination (a b : string) : destination ++ [a; b] ≠ [].
Proof. by destruct destination. Qed.

(** Creating the parent directories, then downloading onto a path that
    is not a directory: the bytes obtained end up at the path. *)
Lemma download_run url destination (a b : string) sha size fs fs1 data :
  is_dir fs (destination ++ [a; b]) = false →
  mkdir_parents fs (parent (destination ++ [a; b])) = Ok fs1 →
  conda_download E url sha size = Ok data →
  (mkdir (parent (destination ++ [a; b])) ;;;
   External._download E url (destination ++ [a; b]) sha size) fs
  = (Ok tt, <[destination ++ [a; b] := File data]> fs1,
     [EvMkdir (parent (destination ++ [a; b]));
      EvDownload url (destination ++ [a; b]) sha size;
      EvWriteFile (destination ++ [a; b])]).
Proof.
  intros Hnodir Hmk Hdl.
  assert (Hparent : is_dir fs1 (parent (destination ++ [a; b])) = true)
    by by apply mkdir_parents_is_dir with fs.
  assert (Hpath : is_dir fs1 (destination ++ [a; b]) = false).
  { rewrite <-Hnodir. apply is_dir_same.
    apply (mkdir_from_longer _ _ _ _ Hmk). rewrite parent_app2, !length_app. simpl. lia. }
  unfold mkdir, External._download, write_bytes, bind, emit, update_fs, lift. simpl.
  rewrite Hmk, Hdl. simpl. unfold write_file. by rewrite Hpath, Hparent.
Qed.
End download_facts.

(** C7.  [download_package(record, destination, verify)] works on
    [destination/subdir/filename].  When a file is there and [verify] is
    true, nothing is done exactly when the file's sha256 digest and its size
    are the record's; otherwise the mismatch is logged and the file is
    downloaded again and overwritten.  When a file is there and [verify] is
    false, nothing is done.  When nothing is there, the parent directories
    are created and the file is downloaded. *)
Theorem download_package_skips_or_downloads (E : Env) (record : PackageRecord)
    (destination : Path) (verify : bool) (fs : FS) :
  let path := destination ++ [pr_subdir record; pr_fn record] in
  let sha := if verify then Some (pr_sha256 record) else None in
  let size := if verify then Some (pr_size record) else None in
  let out := External.download_package E record destination verify fs in
  let matches (data : bytes) :=
    pr_sha256 record = sha256_hexdigest E data
    ∧ pr_size record = Z.of_nat (length data) in
  let downloads (log : list Event) :=
    ∀ fs1 data',
      mkdir_parents fs (parent path) = Ok fs1 →
      conda_download E (pr_url record) sha size = Ok data' →
      is_dir fs1 (parent path) = true
      ∧ out = (Ok tt, <[path := File data']> fs1,
               log ++ [EvMkdir (parent path);
                       EvDownload (pr_url record) path sha size;
                       EvWriteFile path]) in
  parent path = destination ++ [pr_subdir record]
  ∧ (∀ data, fs !! path = Some (File data) → verify = true →
       matches data → out = (Ok tt, fs, []))
  ∧ (∀ data, fs !! path = Some (File data) → verify = true →
       ¬ matches data → downloads [EvLogInfo path])
  ∧ (∀ data, fs !! path = Some (File data) → verify = false →
       out = (Ok tt, fs, []))
  ∧ (path_exists fs path = false → downloads []).
Proof.
  intros path sha size out matches downloads.
  split; [apply parent_app2|].
  assert (Hfile : ∀ data, fs !! path = Some (File data) →
    path_exists fs path = true ∧ is_dir fs path = false).
  { intros data Hp. unfold path_exists, is_file.
    rewrite (is_dir_file fs path data); [by rewrite Hp| |done].
    apply target_not_empty. }
  split; [|split; [|split]].
  - intros data Hp -> [Hsha Hsize]. destruct (Hfile data Hp) as [Hex _].
    subst out. unfold External.download_package, External.verify_file, bind,
      exists_, read_bytes, read_file, ret. simpl. fold path. rewrite Hex, Hp. simpl.
    by rewrite !bool_decide_eq_true_2.
  - intros data Hp -> Hno fs1 data' Hmk Hdl. destruct (Hfile data Hp) as [Hex Hnodir].
    split; [by apply mkdir_parents_is_dir with fs|].
    pose proof (download_run E (pr_url record) destination _ _ sha size fs fs1 data'
                  Hnodir Hmk Hdl) as Hrun.
    subst out. unfold External.download_package. fold path.
    unfold bind at 1. unfold exists_ at 1. rewrite Hex.
    unfold bind at 1. unfold External.verify_file, bind at 1, read_bytes, read_file, ret.
    rewrite Hp. simpl.
    assert (bool_decide (pr_sha256 record = sha256_hexdigest E data)
            && bool_decide (pr_size record = Z.of_nat (length data)) = false) as ->.
    { apply andb_false_iff. rewrite !bool_decide_eq_false. unfold matches in Hno.
      destruct (decide (pr_sha256 record = sha256_hexdigest E data)); [|by left].
      right. intros ?. by apply Hno. }
    unfold bind at 1. unfold emit at 1. fold path in Hrun. subst sha size.
    simpl in *. by rewrite Hrun.
  - intros data Hp ->. destruct (Hfile data Hp) as [Hex _].
    subst out. unfold External.download_package, bind, exists_. fold path. by rewrite Hex.
  - intros Hex fs1 data' Hmk Hdl.
    split; [by apply mkdir_parents_is_dir with fs|].
    assert (Hnodir : is_dir fs path = false).
    { unfold path_exists in Hex. by apply orb_false_iff in Hex as [? _]. }
    pose proof (download_run E (pr_url record) destination _ _ sha size fs fs1 data'
                  Hnodir Hmk Hdl) as Hrun.
    subst out. unfold External.download_package. fold path.
    unfold bind at 1. unfold exists_ at 1. rewrite Hex.
    fold path in Hrun. subst sha size. simpl in *. by rewrite Hrun.
Qed.

(** ** [fetch_patch_instructions] and the packages to remove *)

(** With an iterator that yields nothing as [packages_to_remove], the
    guard [if packages_to_remove:] holds: the file just written is opened
    again, decoded and written back over its start.  Here the document
    received is one byte longer than its re-encoding, and the last byte
    stays behind. *)
Lemma fetch_empty_iterator_rewrites :
  let instructions := ["patch"; "noarch"; "patch_instructions.json"] in
  let absent :=
    External.fetch_patch_instructions Demo.env "up" ["patch"] "noarch" None ∅ in
  let empty :=
    External.fetch_patch_instructions Demo.env "up" ["patch"] "noarch"
      (Some (Iterator [])) ∅ in
  iter_items (Iterator (A:=PackageRecord) []) = []
  ∧ events_of absent =
      [EvHttpGet "up/noarch/patch_instructions.json"; EvMkdir ["patch"];
       EvMkdir ["patch"; "noarch"]; EvWriteFile instructions]
  ∧ events_of empty =
      [EvHttpGet "up/noarch/patch_instructions.json"; EvMkdir ["patch"];
       EvMkdir ["patch"; "noarch"]; EvWriteFile instructions;
       EvOpenRW instructions; EvWriteFile instructions]
  ∧ fs_of absent !! instructions = Some (File (Demo.text "{remove: []}"))
  ∧ fs_of empty !! instructions = Some (File (Demo.text "{remove:[]}}"))
  ∧ empty ≠ absent.
Proof.
  repeat split; try (vm_compute; reflexivity).
  intros Heq. apply (f_equal events_of) in Heq. vm_compute in Heq. discriminate.
Qed.

(** C10, amended.  With an empty sized container (a list, tuple or set,
    which is false when empty) as [packages_to_remove],
    [fetch_patch_instructions] does what it does with the argument absent:
    the file written is never opened again, and when the call returns the
    file holds the bytes received from upstream. *)
Theorem fetch_empty_container_is_absent (E : Env) (channel : string)
    (destination : Path) (subdir : string) (fs : FS) :
  let instructions := destination ++ [subdir; External.PATCH_INSTRUCTIONS] in
  let out :=
    External.fetch_patch_instructions E channel destination subdir (Some (Sized [])) fs in
  out = External.fetch_patch_instructions E channel destination subdir None fs
  ∧ Forall (λ ev, ∀ p, ev ≠ EvOpenRW p) (events_of out)
  ∧ (result_of out = Ok tt →
     ∃ base rest response,
       all_channel_urls E [channel] [subdir] = base :: rest
       ∧ requests_get E (urljoin E (base +:+ "/") External.PATCH_INSTRUCTIONS)
         = Ok response
       ∧ fs_of out !! instructions = Some (File (content response))).
Proof.
  intros instructions out. split; [done|]. split.
  - subst out. revert fs. change (emits (λ ev, ∀ p, ev ≠ EvOpenRW p)
      (External.fetch_patch_instructions E channel destination subdir (Some (Sized [])))).
    unfold External.fetch_patch_instructions, External.first_item, External.get,
      External.raise_for_status. simpl.
    apply emits_bind; [destruct (all_channel_urls E [channel] [subdir]); auto with emits|].
    intros base. apply emits_bind.
    { apply emits_bind; [by apply emits_emit|]. auto with emits. }
    intros response. apply emits_bind; [case_bool_decide; auto with emits|].
    intros _. apply emits_bind; [by apply emits_mkdir|].
    intros _. apply emits_bind; [by apply emits_mkdir|].
    intros _. apply emits_bind; [by apply emits_write_bytes|]. auto with emits.
  - subst out.
    unfold External.fetch_patch_instructions, External.first_item, External.get,
      External.raise_for_status, mkdir, write_bytes, bind, emit, update_fs, lift,
      ret, raise, result_of, fs_of. simpl.
    destruct (all_channel_urls E [channel] [subdir]) as [|base rest]; [done|].
    destruct (requests_get E _) as [e|response] eqn:Hget; [done|].
    case_bool_decide; [done|]. simpl.
    destruct (mkdir_parents fs destination) as [e|fs1]; [done|]. simpl.
    destruct (mkdir_parents fs1 _) as [e|fs2]; [done|]. simpl.
    destruct (write_file fs2 _ _) as [e|fs3] eqn:Hwrite; [done|]. simpl.
    intros _. exists base, rest, response. split; [done|]. split; [done|].
    by apply write_file_lookup in Hwrite.
Qed.

(** ** [merge] *)

Section merge_facts.
Variable E : Env.

Lemma emits_shutil_copy P src dst :
  (∀ p, P (EvWriteFile p)) → emits P (shutil_copy src dst).
Proof.
  intros HP. unfold shutil_copy. apply emits_bind; [auto with emits|]. intros fs.
  case_decide; [auto with emits|].
  apply emits_bind; [auto with emits|]. intros data. by apply emits_write_bytes.
Qed.

(** Called with the empty subdir list, [external.update_index] makes no
    archive, and the builder gets no patch generator. *)
Lemma update_index_empty_filter target silent fs :
  events_of (External.update_index E target (Some []) silent fs)
  = [EvUpdateIndex target None (negb silent)].
Proof.
  unfold External.update_index, bind, ret, emit, update_fs, events_of.
  simpl. by destruct (conda_build_update_index _ _ _ _ _).
Qed.

Lemma raises_at_end_bind {A} (m : M A) (f g : A → M unit) e0 :
  (∀ a, raises_at_end e0 (g a) (f a)) → raises_at_end e0 (bind m g) (bind m f).
Proof.
  intros Hfg fs. unfold bind. destruct (m fs) as [[[e|a] fs1] t1]; [done|].
  rewrite (Hfg a fs1). by destruct (f a fs1) as [[[e|[]] fs2] t2].
Qed.

(** The call of [update_index] as [api.py] writes it, in place of
    nothing. *)
Lemma raises_at_end_update_index target progress subdirs ev :
  raises_at_end TypeError (Api.update_index target progress subdirs ;;; emit ev) (ret tt).
Proof. by intros fs. Qed.

(** What [merge] does after the copy when the index is asked for. *)
Lemma merge_index_run local patch progress fs :
  Api.merge E local patch true progress fs
  = match Api.merge E local patch false progress fs with
    | (Ok _, fs1, t1) => (Err TypeError, fs1, t1)
    | (Err e, fs1, t1) => (Err e, fs1, t1)
    end.
Proof.
  revert fs. change (raises_at_end TypeError (Api.merge E local patch true progress)
                       (Api.merge E local patch false progress)).
  unfold Api.merge. cbv zeta.
  apply raises_at_end_bind. intros files.
  apply raises_at_end_bind. intros _.
  apply raises_at_end_bind. intros _.
  apply raises_at_end_update_index.
Qed.
End merge_facts.

(** C5.  [merge(local, patch, index=True)] does not rebuild the index.
    The call [update_index(local, progress=progress, subdirs=[])] names a
    parameter that [external.update_index] does not have: once the patch
    is copied the call raises [TypeError], so the merge never returns,
    the index builder is never invoked, and the file system and the
    output are those of the merge without the index.  Called as its
    signature allows with the empty subdir list, [external.update_index]
    makes no archive and hands the builder no patch generator, whatever
    patch instructions lie under the mirror. *)
Theorem merge_index_raises (E : Env) (local patch : PathOrString)
    (progress : bool) (fs : FS) :
  let out := Api.merge E local patch true progress fs in
  let copied := Api.merge E local patch false progress fs in
  result_of out ≠ Ok tt
  ∧ (∀ target generator flag, EvUpdateIndex target generator flag ∉ events_of out)
  ∧ fs_of out = fs_of copied
  ∧ events_of out = events_of copied
  ∧ (result_of copied = Ok tt → result_of out = Err TypeError)
  ∧ (∀ silent,
       events_of (External.update_index E (Api.to_path E local) (Some []) silent fs)
       = [EvUpdateIndex (Api.to_path E local) None (negb silent)]).
Proof.
  intros out copied.
  assert (Hnever : ∀ index target generator flag,
    EvUpdateIndex target generator flag
    ∉ events_of (Api.merge E local patch index progress fs)).
  { intros index target generator flag Hin.
    assert (Hev : emits (λ ev, ∀ t g f, ev ≠ EvUpdateIndex t g f)
                    (Api.merge E local patch index progress)).
    { unfold Api.merge.
      apply emits_bind; [auto with emits|]. intros files.
      apply emits_bind.
      { apply emits_for_each. intros file _. apply emits_bind; [auto with emits|].
        intros []; [|auto with emits]. by apply emits_shutil_copy. }
      intros _. apply emits_bind; [by apply emits_emit|].
      intros _. destruct index; [|auto with emits].
      apply emits_bind; [apply emits_raise|]. intros _. by apply emits_emit. }
    specialize (Hev fs). rewrite Forall_forall in Hev. by apply (Hev _ Hin target generator flag). }
  subst out copied. rewrite (merge_index_run E local patch progress fs).
  split; [|split; [|split; [|split; [|split]]]].
  - by destruct (Api.merge E local patch false progress fs) as [[[e|[]] fs1] t1].
  - rewrite <-(merge_index_run E local patch progress fs). apply Hnever.
  - by destruct (Api.merge E local patch false progress fs) as [[[e|[]] fs1] t1].
  - by destruct (Api.merge E local patch false progress fs) as [[[e|[]] fs1] t1].
  - by destruct (Api.merge E local patch false progress fs) as [[[e|[]] fs1] t1].
  - intros silent. apply update_index_empty_filter.
Qed.

(** The patch arrives in the mirror, and then the merge fails. *)
Lemma merge_index_raises_witness :
  result_of (Api.merge Demo.env (AsString "mirror") (AsString "patch") true false
               Demo.mirror_and_noarch_patch) = Err TypeError
  ∧ fs_of (Api.merge Demo.env (AsString "mirror") (AsString "patch") true false
             Demo.mirror_and_noarch_patch)
      !! ["mirror"; "noarch"; "patch_instructions.json"] = Some (File (Demo.text "new"))
  ∧ events_of (Api.merge Demo.env (AsString "mirror") (AsString "patch") true false
                 Demo.mirror_and_noarch_patch)
    = [EvWriteFile ["mirror"; "noarch"; "patch_instructions.json"];
       EvPrint "Copying patch: done"].
Proof.
  destruct (merge_index_raises Demo.env (AsString "mirror") (AsString "patch") false
              Demo.mirror_and_noarch_patch) as (_ & _ & Hfs & Hev & Hraise & _).
  split; [apply Hraise; vm_compute; reflexivity|].
  split; [rewrite Hfs|rewrite Hev]; vm_compute; reflexivity.
Defined.

(** C3.  The patch holds [linux-64/patch_instructions.json] and the mirror
    has no [linux-64] directory: [merge] raises [FileNotFoundError] on the
    copy and the file is not in the mirror; no directory has been
    created. *)
Theorem merge_missing_subdir_raises (E : Env) (index progress : bool) :
  let out :=
    Api.merge E (AsPath ["mirror"]) (AsPath ["patch"]) index progress
      Demo.mirror_and_patch in
  is_file Demo.mirror_and_patch ["patch"; "linux-64"; "patch_instructions.json"] = true
  ∧ is_dir Demo.mirror_and_patch ["mirror"] = true
  ∧ result_of out = Err FileNotFoundError
  ∧ fs_of out = Demo.mirror_and_patch
  ∧ fs_of out !! ["mirror"; "linux-64"; "patch_instructions.json"] = None
  ∧ is_dir (fs_of out) ["mirror"; "linux-64"] = false.
Proof. repeat split; vm_compute; reflexivity. Qed.

(** ** [diff] *)

Section diff_facts.
Variable E : Env.

(** The [try] block of [diff] only creates the generator: it returns
    it, whatever reading it will do. *)
Lemma diff_try_block_returns local subdirs fs :
  try_except
    (call_generator (local_records E local subdirs))
    (λ e, match e with
          | UnavailableInvalidChannel => ret (iter [])
          | _ => raise e
          end) fs
  = (Ok (local_records E local subdirs), fs, []).
Proof. reflexivity. Qed.

(** When both sides can be read, [diff] returns what [compare_records]
    finds, swapped: records only upstream, then records only local. *)
Lemma diff_readable local upstream specs subdirs fs locals upstreams :
  local_records E local subdirs fs = (Ok locals, fs, []) →
  finder_search E fs (Api._ensure_list upstream) (Api._ensure_subdirs E subdirs)
    (Api._ensure_list specs) = Ok upstreams →
  Api.diff E local upstream specs subdirs fs
  = (Ok (snd (compare_records locals upstreams),
         fst (compare_records locals upstreams)), fs, []).
Proof.
  intros Hlocal Hup. unfold local_records in Hlocal.
  unfold Api.diff, Api.query, compare_records_iter, read_all, iter,
    call_generator, try_except, bind, get_fs, lift, ret. simpl.
  rewrite Hup. simpl. by rewrite Hlocal.
Qed.
End diff_facts.

(** C1.  Where reading the local mirror raises the channel-unavailable
    condition, [diff] raises it too: the handler of [diff] guards only the
    creation of the generator, and the mirror is read later, inside
    [compare_records].  The upstream set is not returned. *)
Theorem diff_unavailable_local_propagates (E : Env) (local : PathOrString)
    (upstream specs : OneOrMoreStrings) (subdirs : option OneOrMoreStrings)
    (fs : FS) (upstreams : list PackageRecord) :
  result_of (local_records E local subdirs fs) = Err UnavailableInvalidChannel →
  finder_search E fs (Api._ensure_list upstream) (Api._ensure_subdirs E subdirs)
    (Api._ensure_list specs) = Ok upstreams →
  result_of (Api.diff E local upstream specs subdirs fs) = Err UnavailableInvalidChannel.
Proof.
  intros Hlocal Hup. unfold local_records in Hlocal.
  unfold Api.diff, Api.query, compare_records_iter, read_all, iter,
    call_generator, try_except, bind, get_fs, lift, ret. simpl.
  rewrite Hup. simpl.
  destruct (Api.iterate E _ _ fs) as [[[e|locals] fs'] t]; simpl in *; [|done].
  by injection Hlocal as ->.
Qed.

Lemma diff_unavailable_local_witness :
  result_of (Api.diff Demo.env (AsString "gone") (One "up") (One "alpha") None ∅)
  = Err UnavailableInvalidChannel.
Proof.
  apply (diff_unavailable_local_propagates Demo.env (AsString "gone") (One "up")
           (One "alpha") None ∅ [Demo.pkg_b; Demo.pkg_a]).
  - vm_compute. reflexivity.
  - reflexivity.
Defined.

(** ** The events of the steps of [sync] *)

Section step_events.
Variable E : Env.
Context (P : Event → Prop).

(** As [emits_bind], with the value the first computation returned. *)
Lemma emits_bind_result {A B} (m : M A) (f : A → M B) :
  emits P m →
  (∀ fs a, result_of (m fs) = Ok a → emits P (f a)) →
  emits P (bind m f).
Proof.
  intros Hm Hf fs. rewrite events_bind. apply Forall_app. split; [apply Hm|].
  destruct (result_of (m fs)) as [e|a] eqn:Hr; [constructor|].
  by apply (Hf fs a).
Qed.

Lemma emits_query_channel channel specs subdirs :
  emits P (External.query_channel E channel specs subdirs).
Proof.
  unfold External.query_channel. apply emits_bind; [|auto with emits].
  apply emits_map_m. intros spec _. apply emits_bind; auto with emits.
Qed.

Lemma emits_iterate channels subdirs : emits P (Api.iterate E channels subdirs).
Proof.
  unfold Api.iterate, Api.iter_channels. apply emits_bind; [|auto with emits].
  apply emits_map_m. intros channel _. apply emits_query_channel.
Qed.

Lemma emits_query channels specs subdirs graph_file :
  emits P (Api.query E channels specs subdirs graph_file).
Proof.
  unfold Api.query. apply emits_bind; [auto with emits|]. intros fs.
  apply emits_bind; auto with emits.
Qed.

Lemma emits_diff local upstream specs subdirs :
  emits P (Api.diff E local upstream specs subdirs).
Proof.
  unfold Api.diff. apply emits_bind_result.
  { apply emits_try_except; [apply emits_ret|].
    intros []; auto with emits. }
  intros fs generator Hgen. injection Hgen as <-.
  apply emits_bind; [apply emits_query|]. intros upstreams.
  apply emits_bind.
  - unfold compare_records_iter, read_all. apply emits_bind; [apply emits_iterate|].
    intros locals. apply emits_bind; [apply emits_ret|]. auto with emits.
  - intros [removed added]. apply emits_ret.
Qed.

Lemma emits_ensure_local_channel local :
  P (EvMkdir (Api.to_path E local ++ ["noarch"])) →
  P (EvWriteFile (Api.to_path E local ++ ["noarch"; "repodata.json"])) →
  emits P (Api._ensure_local_channel E local).
Proof.
  intros Hmk Hwr. unfold Api._ensure_local_channel. rewrite parent_app2.
  apply emits_bind; [by apply emits_mkdir|]. intros _.
  apply emits_bind; [by apply emits_touch|]. auto with emits.
Qed.

Lemma ensure_local_channel_result local fs path :
  result_of (Api._ensure_local_channel E local fs) = Ok path →
  path = Api.to_path E local.
Proof.
  unfold Api._ensure_local_channel. intros Hok.
  apply bind_Ok_inv in Hok as (? & _ & Hok).
  apply bind_Ok_inv in Hok as (? & _ & Hok).
  by injection Hok as <-.
Qed.

Lemma emits_download_patch_instructions channels destination subdir :
  (∀ url, P (EvHttpGet url)) →
  P (EvMkdir destination) →
  P (EvMkdir (destination ++ [subdir])) →
  P (EvWriteFile (destination ++ [subdir; External.PATCH_INSTRUCTIONS])) →
  emits P (Api.download_patch_instructions E channels destination subdir).
Proof.
  intros Hget Hmk1 Hmk2 Hwr. unfold Api.download_patch_instructions.
  rewrite parent_app2.
  apply emits_bind.
  { unfold External.first_item. destruct (all_channel_urls E channels [subdir]);
      auto with emits. }
  intros base. apply emits_bind.
  { unfold External.get. apply emits_bind; [by apply emits_emit|]. auto with emits. }
  intros response. apply emits_bind.
  { unfold External.raise_for_status. case_bool_decide; auto with emits. }
  intros _. apply emits_bind; [by apply emits_mkdir|].
  intros _. apply emits_bind; [by apply emits_mkdir|].
  intros _. by apply emits_write_bytes.
Qed.

Lemma emits_download_package record destination verify :
  let path := destination ++ [pr_subdir record; pr_fn record] in
  P (EvLogInfo path) →
  P (EvMkdir (destination ++ [pr_subdir record])) →
  (∀ sha size, P (EvDownload (pr_url record) path sha size)) →
  P (EvWriteFile path) →
  emits P (External.download_package E record destination verify).
Proof.
  intros path Hlog Hmk Hdl Hwr. unfold External.download_package. cbv zeta.
  rewrite parent_app2. fold path.
  assert (Hfetch : ∀ sha size, emits P
    (mkdir (destination ++ [pr_subdir record]) ;;;
     External._download E (pr_url record) path sha size)).
  { intros sha size. apply emits_bind; [by apply emits_mkdir|]. intros _.
    unfold External._download. apply emits_bind; [by apply emits_emit|]. intros _.
    apply emits_bind; [auto with emits|]. intros data. by apply emits_write_bytes. }
  apply emits_bind; [auto with emits|]. intros [].
  - destruct verify; [|auto with emits].
    apply emits_bind.
    { unfold External.verify_file. apply emits_bind; auto with emits. }
    intros []; [auto with emits|].
    apply emits_bind; [by apply emits_emit|]. intros _. apply Hfetch.
  - apply Hfetch.
Qed.

Lemma emits_update_index target progress subdirs :
  emits P (Api.update_index target progress subdirs).
Proof. apply emits_raise. Qed.
End step_events.

(** ** Directories stay *)

Section keeps_dirs_facts.
Variable E : Env.

Lemma keeps_dirs_ret {A} (a : A) : keeps_dirs (ret a).
Proof. by intros fs q. Qed.

Lemma keeps_dirs_raise {A} e : keeps_dirs (raise (A:=A) e).
Proof. by intros fs q. Qed.

Lemma keeps_dirs_lift {A} (r : Result A) : keeps_dirs (lift r).
Proof. by intros fs q. Qed.

Lemma keeps_dirs_get_fs : keeps_dirs get_fs.
Proof. by intros fs q. Qed.

Lemma keeps_dirs_emit ev : keeps_dirs (emit ev).
Proof. by intros fs q. Qed.

Lemma keeps_dirs_exists_ p : keeps_dirs (exists_ p).
Proof. by intros fs q. Qed.

Lemma keeps_dirs_read_bytes p : keeps_dirs (read_bytes p).
Proof. by intros fs q. Qed.

Lemma keeps_dirs_update_fs (f : FS → Result FS) :
  (∀ fs fs' q, f fs = Ok fs' → is_dir fs q = true → is_dir fs' q = true) →
  keeps_dirs (update_fs f).
Proof.
  intros Hf fs q Hq. unfold update_fs, fs_of.
  destruct (f fs) as [e|fs'] eqn:Hrun; simpl; [done|]. by apply (Hf fs).
Qed.

Lemma keeps_dirs_bind_result {A B} (m : M A) (f : A → M B) :
  keeps_dirs m →
  (∀ fs a, result_of (m fs) = Ok a → keeps_dirs (f a)) →
  keeps_dirs (bind m f).
Proof.
  intros Hm Hf fs q Hq. rewrite fs_bind.
  destruct (result_of (m fs)) as [e|a] eqn:Hr; [by apply Hm|].
  apply (Hf fs a Hr). by apply Hm.
Qed.

Lemma keeps_dirs_bind {A B} (m : M A) (f : A → M B) :
  keeps_dirs m → (∀ a, keeps_dirs (f a)) → keeps_dirs (bind m f).
Proof. intros Hm Hf. apply keeps_dirs_bind_result; [done|]. intros _ a _. apply Hf. Qed.

Lemma keeps_dirs_try_except {A} (m : M A) handler :
  keeps_dirs m → (∀ e, keeps_dirs (handler e)) → keeps_dirs (try_except m handler).
Proof.
  intros Hm Hh fs q Hq. specialize (Hm fs q Hq). unfold try_except, fs_of in *.
  destruct (m fs) as [[[e|a] fs1] t1]; simpl in *; [|done].
  specialize (Hh e fs1 q Hm). unfold fs_of in Hh.
  by destruct (handler e fs1) as [[r fs2] t2].
Qed.

Lemma keeps_dirs_for_each {A} (l : list A) body :
  (∀ x, keeps_dirs (body x)) → keeps_dirs (for_each l body).
Proof.
  intros Hbody. induction l as [|x l IH]; simpl.
  - apply keeps_dirs_ret.
  - apply keeps_dirs_bind; [apply Hbody|]. by intros _.
Qed.

Lemma keeps_dirs_map_m {A B} (l : list A) (body : A → M B) :
  (∀ x, keeps_dirs (body x)) → keeps_dirs (map_m l body).
Proof.
  intros Hbody. induction l as [|x l IH]; simpl.
  - apply keeps_dirs_ret.
  - apply keeps_dirs_bind; [apply Hbody|]. intros y.
    apply keeps_dirs_bind; [done|]. intros ys. apply keeps_dirs_ret.
Qed.

Lemma keeps_dirs_mkdir p : keeps_dirs (mkdir p).
Proof.
  apply keeps_dirs_bind; [apply keeps_dirs_emit|]. intros _.
  apply keeps_dirs_update_fs. intros fs fs' q. apply mkdir_parents_keeps_dirs.
Qed.

Lemma keeps_dirs_write_bytes p data : keeps_dirs (write_bytes p data).
Proof.
  apply keeps_dirs_bind; [|intros _; apply keeps_dirs_emit].
  apply keeps_dirs_update_fs. intros fs fs' q. apply write_file_keeps_dirs.
Qed.

Lemma mkdir_ok_is_dir p fs :
  result_of (mkdir p fs) = Ok tt → is_dir (fs_of (mkdir p fs)) p = true.
Proof.
  unfold mkdir, bind, emit, update_fs, result_of, fs_of. simpl.
  destruct (mkdir_parents fs p) as [e|fs'] eqn:Hrun; simpl; [done|].
  intros _. by apply mkdir_parents_is_dir with fs.
Qed.

Lemma keeps_dirs_query_channel channel specs subdirs :
  keeps_dirs (External.query_channel E channel specs subdirs).
Proof.
  unfold External.query_channel.
  apply keeps_dirs_bind; [|intros; apply keeps_dirs_ret].
  apply keeps_dirs_map_m. intros spec.
  apply keeps_dirs_bind; [apply keeps_dirs_get_fs|]. intros. apply keeps_dirs_lift.
Qed.

Lemma keeps_dirs_iterate channels subdirs : keeps_dirs (Api.iterate E channels subdirs).
Proof.
  unfold Api.iterate, Api.iter_channels.
  apply keeps_dirs_bind; [|intros; apply keeps_dirs_ret].
  apply keeps_dirs_map_m. intros channel. apply keeps_dirs_query_channel.
Qed.

Lemma keeps_dirs_diff local upstream specs subdirs :
  keeps_dirs (Api.diff E local upstream specs subdirs).
Proof.
  unfold Api.diff. apply keeps_dirs_bind_result.
  { apply keeps_dirs_try_except; [apply keeps_dirs_ret|].
    intros []; first [apply keeps_dirs_ret|apply keeps_dirs_raise]. }
  intros fs generator Hgen. injection Hgen as <-.
  apply keeps_dirs_bind.
  { unfold Api.query. apply keeps_dirs_bind; [apply keeps_dirs_get_fs|]. intros.
    apply keeps_dirs_bind; [apply keeps_dirs_lift|]. intros. apply keeps_dirs_ret. }
  intros upstreams. apply keeps_dirs_bind.
  - unfold compare_records_iter, read_all.
    apply keeps_dirs_bind; [apply keeps_dirs_iterate|]. intros locals.
    apply keeps_dirs_bind; intros; apply keeps_dirs_ret.
  - intros [removed added]. apply keeps_dirs_ret.
Qed.

Lemma keeps_dirs_download_patch_instructions channels destination subdir :
  keeps_dirs (Api.download_patch_instructions E channels destination subdir).
Proof.
  unfold Api.download_patch_instructions.
  apply keeps_dirs_bind.
  { unfold External.first_item. destruct (all_channel_urls E channels [subdir]);
      [apply keeps_dirs_raise|apply keeps_dirs_ret]. }
  intros base. apply keeps_dirs_bind.
  { unfold External.get. apply keeps_dirs_bind; [apply keeps_dirs_emit|].
    intros. apply keeps_dirs_lift. }
  intros response. apply keeps_dirs_bind.
  { unfold External.raise_for_status.
    case_bool_decide; [apply keeps_dirs_raise|apply keeps_dirs_ret]. }
  intros _. apply keeps_dirs_bind; [apply keeps_dirs_mkdir|].
  intros _. apply keeps_dirs_bind; [apply keeps_dirs_mkdir|].
  intros _. apply keeps_dirs_write_bytes.
Qed.

Lemma keeps_dirs_download_package record destination verify :
  keeps_dirs (External.download_package E record destination verify).
Proof.
  unfold External.download_package. cbv zeta.
  assert (Hfetch : ∀ p sha size, keeps_dirs
    (mkdir (parent p) ;;; External._download E (pr_url record) p sha size)).
  { intros p sha size. apply keeps_dirs_bind; [apply keeps_dirs_mkdir|]. intros _.
    unfold External._download. apply keeps_dirs_bind; [apply keeps_dirs_emit|].
    intros _. apply keeps_dirs_bind; [apply keeps_dirs_lift|]. intros data.
    apply keeps_dirs_write_bytes. }
  apply keeps_dirs_bind; [apply keeps_dirs_exists_|]. intros [].
  - destruct verify; [|apply keeps_dirs_ret].
    apply keeps_dirs_bind.
    { unfold External.verify_file. apply keeps_dirs_bind; [apply keeps_dirs_read_bytes|].
      intros. apply keeps_dirs_ret. }
    intros []; [apply keeps_dirs_ret|].
    apply keeps_dirs_bind; [apply keeps_dirs_emit|]. intros _. apply Hfetch.
  - apply Hfetch.
Qed.
End keeps_dirs_facts.

(** ** The queries leave the file system alone *)

Section reads_only_facts.
Variable E : Env.

Lemma reads_only_ret {A} (a : A) : reads_only (ret a).
Proof. by intros fs. Qed.

Lemma reads_only_raise {A} e : reads_only (raise (A:=A) e).
Proof. by intros fs. Qed.

Lemma reads_only_lift {A} (r : Result A) : reads_only (lift r).
Proof. by intros fs. Qed.

Lemma reads_only_get_fs : reads_only get_fs.
Proof. by intros fs. Qed.

Lemma reads_only_bind_result {A B} (m : M A) (f : A → M B) :
  reads_only m →
  (∀ fs a, result_of (m fs) = Ok a → reads_only (f a)) →
  reads_only (bind m f).
Proof.
  intros Hm Hf fs. destruct (Hm fs) as [Hfs Hev].
  rewrite fs_bind, events_bind, Hev, Hfs.
  destruct (result_of (m fs)) as [e|a] eqn:Hr; [done|].
  destruct (Hf fs a Hr fs) as [Hfs' Hev']. by rewrite Hfs', Hev'.
Qed.

Lemma reads_only_bind {A B} (m : M A) (f : A → M B) :
  reads_only m → (∀ a, reads_only (f a)) → reads_only (bind m f).
Proof. intros Hm Hf. apply reads_only_bind_result; [done|]. intros _ a _. apply Hf. Qed.

Lemma reads_only_map_m {A B} (l : list A) (body : A → M B) :
  (∀ x, reads_only (body x)) → reads_only (map_m l body).
Proof.
  intros Hbody. induction l as [|x l IH]; simpl; [apply reads_only_ret|].
  apply reads_only_bind; [apply Hbody|]. intros y.
  apply reads_only_bind; [done|]. intros ys. apply reads_only_ret.
Qed.

Lemma reads_only_query_channel channel specs subdirs :
  reads_only (External.query_channel E channel specs subdirs).
Proof.
  unfold External.query_channel.
  apply reads_only_bind; [|intros; apply reads_only_ret].
  apply reads_only_map_m. intros spec.
  apply reads_only_bind; [apply reads_only_get_fs|]. intros. apply reads_only_lift.
Qed.

Lemma reads_only_iterate channels subdirs : reads_only (Api.iterate E channels subdirs).
Proof.
  unfold Api.iterate, Api.iter_channels.
  apply reads_only_bind; [|intros; apply reads_only_ret].
  apply reads_only_map_m. intros channel. apply reads_only_query_channel.
Qed.

Lemma reads_only_query channels specs subdirs graph_file :
  reads_only (Api.query E channels specs subdirs graph_file).
Proof.
  unfold Api.query. apply reads_only_bind; [apply reads_only_get_fs|]. intros.
  apply reads_only_bind; [apply reads_only_lift|]. intros. apply reads_only_ret.
Qed.

Lemma reads_only_diff local upstream specs subdirs :
  reads_only (Api.diff E local upstream specs subdirs).
Proof.
  unfold Api.diff. apply reads_only_bind_result; [done|].
  intros fs generator Hgen. injection Hgen as <-.
  apply reads_only_bind; [apply reads_only_query|]. intros upstreams.
  apply reads_only_bind.
  - unfold compare_records_iter, read_all.
    apply reads_only_bind; [apply reads_only_iterate|]. intros locals.
    apply reads_only_bind; intros; apply reads_only_ret.
  - intros [removed added]. apply reads_only_ret.
Qed.
End reads_only_facts.

(** ** What a computation leaves alone *)

Section frame_facts.
Variable E : Env.
Implicit Types (Q : Path → Prop) (fs : FS) (p q d todo : Path).

Lemma changes_only_mono {A} Q Q' (m : M A) :
  (∀ q, Q q → Q' q) → changes_only Q m → changes_only Q' m.
Proof. intros HQ Hm fs q Hq. apply Hm. intros HQq. by apply Hq, HQ. Qed.

Lemma changes_only_reads {A} Q (m : M A) : reads_only m → changes_only Q m.
Proof. intros Hm fs q _. by rewrite (proj1 (Hm fs)). Qed.

Lemma changes_only_ret {A} Q (a : A) : changes_only Q (ret a).
Proof. by intros fs q. Qed.

Lemma changes_only_raise {A} Q e : changes_only Q (raise (A:=A) e).
Proof. by intros fs q. Qed.

Lemma changes_only_lift {A} Q (r : Result A) : changes_only Q (lift r).
Proof. by intros fs q. Qed.

Lemma changes_only_emit Q ev : changes_only Q (emit ev).
Proof. by intros fs q. Qed.

Lemma changes_only_exists_ Q p : changes_only Q (exists_ p).
Proof. by intros fs q. Qed.

Lemma changes_only_read_bytes Q p : changes_only Q (read_bytes p).
Proof. by intros fs q. Qed.

Lemma changes_only_bind_result {A B} Q (m : M A) (f : A → M B) :
  changes_only Q m →
  (∀ fs a, result_of (m fs) = Ok a → changes_only Q (f a)) →
  changes_only Q (bind m f).
Proof.
  intros Hm Hf fs q Hq. rewrite fs_bind.
  destruct (result_of (m fs)) as [e|a] eqn:Hr; [by apply Hm|].
  rewrite (Hf fs a Hr _ q Hq). by apply Hm.
Qed.

Lemma changes_only_bind {A B} Q (m : M A) (f : A → M B) :
  changes_only Q m → (∀ a, changes_only Q (f a)) → changes_only Q (bind m f).
Proof. intros Hm Hf. apply changes_only_bind_result; [done|]. intros _ a _. apply Hf. Qed.

Lemma changes_only_for_each {A} Q (l : list A) body :
  (∀ x, x ∈ l → changes_only Q (body x)) → changes_only Q (for_each l body).
Proof.
  induction l as [|x l IH]; intros Hbody; simpl; [apply changes_only_ret|].
  apply changes_only_bind; [apply Hbody; by left|]. intros _. apply IH.
  intros y Hy. apply Hbody. by right.
Qed.

Lemma changes_only_update_fs Q (f : FS → Result FS) :
  (∀ fs fs' q, f fs = Ok fs' → ¬ Q q → fs' !! q = fs !! q) →
  changes_only Q (update_fs f).
Proof.
  intros Hf fs q Hq. unfold update_fs, fs_of.
  destruct (f fs) as [e|fs'] eqn:Hrun; simpl; [done|]. by apply (Hf fs).
Qed.

(** [mkdir] creates directories at the path and above it, nowhere else. *)
Lemma mkdir_from_frame fs d todo fs' q :
  mkdir_from fs d todo = Ok fs' → ¬ q `prefix_of` d ++ todo → fs' !! q = fs !! q.
Proof.
  revert fs d. induction todo as [|c rest IH]; intros fs d Hrun Hq; simpl in Hrun.
  - by injection Hrun as <-.
  - assert (Hq' : ¬ q `prefix_of` (d ++ [c]) ++ rest) by (by rewrite <-app_assoc).
    destruct (fs !! (d ++ [c])) as [[data|]|] eqn:Hp; [done| |].
    + by apply (IH fs (d ++ [c])).
    + rewrite (IH _ (d ++ [c]) Hrun Hq'). apply lookup_insert_ne. intros <-.
      apply Hq. exists rest. by rewrite <-app_assoc.
Qed.

Lemma changes_only_mkdir p : changes_only (λ q, q `prefix_of` p) (mkdir p).
Proof.
  apply changes_only_bind; [apply changes_only_emit|]. intros _.
  apply changes_only_update_fs. intros fs fs' q Hrun Hq.
  by apply (mkdir_from_frame fs [] p).
Qed.

Lemma changes_only_write_bytes p data : changes_only (λ q, q = p) (write_bytes p data).
Proof.
  apply changes_only_bind; [|intros _; apply changes_only_emit].
  apply changes_only_update_fs. intros fs fs' q. unfold write_file.
  destruct (is_dir fs p); [done|].
  destruct (is_dir fs (parent p)); [|by destruct (is_file fs (parent p))].
  intros [= <-] Hq. apply lookup_insert_ne. by intros <-.
Qed.

Lemma changes_only_touch p : changes_only (λ q, q = p) (touch p).
Proof.
  apply changes_only_bind; [apply changes_only_exists_|].
  intros []; [apply changes_only_ret|apply changes_only_write_bytes].
Qed.

Lemma prefix_of_parent2 d (a b : string) q :
  q `prefix_of` d ++ [a] → q `prefix_of` d ++ [a; b].
Proof.
  intros Hq. replace (d ++ [a; b]) with ((d ++ [a]) ++ [b]) by (by rewrite <-app_assoc).
  by apply prefix_app_r.
Qed.

Lemma changes_only_download_package record destination verify :
  changes_only (λ q, q `prefix_of` destination ++ [pr_subdir record; pr_fn record])
    (External.download_package E record destination verify).
Proof.
  unfold External.download_package. cbv zeta. rewrite parent_app2.
  assert (Hfetch : ∀ sha size,
    changes_only (λ q, q `prefix_of` destination ++ [pr_subdir record; pr_fn record])
      (mkdir (destination ++ [pr_subdir record]) ;;;
       External._download E (pr_url record)
         (destination ++ [pr_subdir record; pr_fn record]) sha size)).
  { intros sha size. apply changes_only_bind.
    { eapply changes_only_mono; [|apply changes_only_mkdir].
      intros q. apply prefix_of_parent2. }
    intros _. unfold External._download.
    apply changes_only_bind; [apply changes_only_emit|]. intros _.
    apply changes_only_bind; [apply changes_only_lift|]. intros data.
    eapply changes_only_mono; [|apply changes_only_write_bytes]. by intros q ->. }
  apply changes_only_bind; [apply changes_only_exists_|]. intros [].
  - destruct verify; [|apply changes_only_ret].
    apply changes_only_bind.
    { unfold External.verify_file.
      apply changes_only_bind; [apply changes_only_read_bytes|].
      intros. apply changes_only_ret. }
    intros []; [apply changes_only_ret|].
    apply changes_only_bind; [apply changes_only_emit|]. intros _. apply Hfetch.
  - apply Hfetch.
Qed.

Lemma changes_only_download_patch_instructions channels destination subdir :
  changes_only (λ q, q `prefix_of` destination ++ [subdir; External.PATCH_INSTRUCTIONS])
    (Api.download_patch_instructions E channels destination subdir).
Proof.
  unfold Api.download_patch_instructions. rewrite parent_app2.
  apply changes_only_bind.
  { unfold External.first_item. destruct (all_channel_urls E channels [subdir]);
      [apply changes_only_raise|apply changes_only_ret]. }
  intros base. apply changes_only_bind.
  { unfold External.get. apply changes_only_bind; [apply changes_only_emit|].
    intros. apply changes_only_lift. }
  intros response. apply changes_only_bind.
  { unfold External.raise_for_status.
    case_bool_decide; [apply changes_only_raise|apply changes_only_ret]. }
  intros _. apply changes_only_bind.
  { eapply changes_only_mono; [|apply changes_only_mkdir].
    intros q. apply prefix_app_r. }
  intros _. apply changes_only_bind.
  { eapply changes_only_mono; [|apply changes_only_mkdir].
    intros q. apply prefix_of_parent2. }
  intros _. eapply changes_only_mono; [|apply changes_only_write_bytes]. by intros q ->.
Qed.

Lemma changes_only_ensure_local_channel local :
  changes_only (λ q, q `prefix_of` Api.to_path E local ++ ["noarch"; "repodata.json"])
    (Api._ensure_local_channel E local).
Proof.
  unfold Api._ensure_local_channel. rewrite parent_app2.
  apply changes_only_bind.
  { eapply changes_only_mono; [|apply changes_only_mkdir].
    intros q. apply prefix_of_parent2. }
  intros _. apply changes_only_bind; [|intros _; apply changes_only_ret].
  eapply changes_only_mono; [|apply changes_only_touch]. by intros q ->.
Qed.

(** [sync] changes the file system only at the bootstrap stub of the
    mirror and the directories above it, and at the destination, the
    directories above it and two levels below it. *)
Lemma changes_only_sync channels local specs subdirs index verify patch progress :
  changes_only
    (λ q, q `prefix_of` Api.to_path E local ++ ["noarch"; "repodata.json"]
          ∨ ∃ subdir name : string,
              q `prefix_of`
                (if negb (path_truthy patch) then Api.to_path E local
                 else Api.to_path E patch) ++ [subdir; name])
    (Api.sync E channels local specs subdirs index verify patch progress).
Proof.
  unfold Api.sync. apply changes_only_bind_result.
  { eapply changes_only_mono; [|apply changes_only_ensure_local_channel]. by left. }
  intros fs mirror Hm. apply ensure_local_channel_result in Hm as ->.
  apply changes_only_bind.
  { eapply changes_only_mono; [|apply changes_only_mkdir].
    intros q Hq. right. exists "noarch", "repodata.json". by apply prefix_app_r. }
  intros _. apply changes_only_bind.
  { apply changes_only_reads, reads_only_diff. }
  intros compared. apply changes_only_bind.
  { apply changes_only_for_each. intros subdir _.
    eapply changes_only_mono; [|apply changes_only_download_patch_instructions].
    intros q Hq. right. by exists subdir, External.PATCH_INSTRUCTIONS. }
  intros _. apply changes_only_bind; [apply changes_only_emit|]. intros _.
  apply changes_only_bind.
  { apply changes_only_for_each. intros record _.
    eapply changes_only_mono; [|apply changes_only_download_package].
    intros q Hq. right. by exists (pr_subdir record), (pr_fn record). }
  intros _. apply changes_only_bind; [apply changes_only_emit|]. intros _.
  destruct (index && negb (path_truthy patch)); [|apply changes_only_ret].
  apply changes_only_bind; [apply changes_only_raise|]. intros _.
  apply changes_only_emit.
Qed.
End frame_facts.

(** ** [sync] *)

Section sync_facts.
Variable E : Env.

Lemma sync_events channels local specs subdirs index verify patch progress :
  emits (sync_event_ok (Api.to_path E local)
           (if negb (path_truthy patch) then Api.to_path E local else Api.to_path E patch))
        (Api.sync E channels local specs subdirs index verify patch progress).
Proof.
  unfold Api.sync. apply emits_bind_result.
  { apply emits_ensure_local_channel; simpl; auto. }
  intros fs mirror Hm. apply ensure_local_channel_result in Hm as ->.
  apply emits_bind; [by apply emits_mkdir|]. intros _.
  apply emits_bind; [apply emits_diff|]. intros compared.
  apply emits_bind.
  { apply emits_for_each. intros subdir _.
    apply emits_download_patch_instructions; simpl; eauto. }
  intros _. apply emits_bind; [by apply emits_emit|]. intros _.
  apply emits_bind.
  { apply emits_for_each. intros record _.
    apply emits_download_package; simpl; eauto. }
  intros _. apply emits_bind; [by apply emits_emit|]. intros _.
  destruct (index && negb (path_truthy patch)) eqn:Hidx.
  - apply emits_bind; [apply emits_update_index|]. intros _. by apply emits_emit.
  - apply emits_ret.
Qed.

(** With the index asked for and no patch directory, [sync] runs as
    without the index and raises [TypeError] where that run returns. *)
Lemma sync_index_run channels local specs subdirs verify patch progress :
  path_truthy patch = false →
  raises_at_end TypeError
    (Api.sync E channels local specs subdirs true verify patch progress)
    (Api.sync E channels local specs subdirs false verify patch progress).
Proof.
  intros Hp. unfold Api.sync. rewrite Hp. cbn [negb andb].
  apply raises_at_end_bind. intros mirror.
  apply raises_at_end_bind. intros _.
  apply raises_at_end_bind. intros compared.
  apply raises_at_end_bind. intros _.
  apply raises_at_end_bind. intros _.
  apply raises_at_end_bind. intros _.
  apply raises_at_end_bind. intros _.
  apply raises_at_end_update_index.
Qed.
End sync_facts.

(** C4.  With a patch argument that is true, [sync] writes only the
    bootstrap stub of the mirror and files two levels below the patch
    directory, downloads only there, and when it returns the patch
    directory exists; when the patch directory and the mirror lie apart,
    nothing below the mirror is created, changed or removed except
    [noarch] and the stub in it.  The index, however, is never rebuilt: no
    run of [sync] reaches the index builder.  With [index] true and no
    patch directory the call
    [update_index(local, progress=progress, subdirs=subdirs)] names a
    parameter [external.update_index] does not have, so [sync] never
    returns: it does what the run without the index does and, where that
    run returns, raises [TypeError]. *)
Theorem sync_patch_target_and_index (E : Env) (channels : OneOrMoreStrings)
    (local : PathOrString) (specs : OneOrMoreStrings)
    (subdirs : option OneOrMoreStrings) (index verify : bool)
    (patch : PathOrString) (progress : bool) (fs : FS) :
  let out := Api.sync E channels local specs subdirs index verify patch progress fs in
  let unindexed :=
    Api.sync E channels local specs subdirs false verify patch progress fs in
  let mirror := Api.to_path E local in
  (path_truthy patch = true →
     Forall (sync_event_ok mirror (Api.to_path E patch)) (events_of out)
     ∧ (result_of out = Ok tt → is_dir (fs_of out) (Api.to_path E patch) = true)
     ∧ (apart (Api.to_path E patch) mirror = true →
        (∀ p, EvWriteFile p ∈ events_of out →
              p = mirror ++ ["noarch"; "repodata.json"] ∨ below mirror p = false)
        ∧ (∀ url p sha size, EvDownload url p sha size ∈ events_of out →
              below mirror p = false)
        ∧ (∀ q, below mirror q = true →
              q ≠ mirror ++ ["noarch"] → q ≠ mirror ++ ["noarch"; "repodata.json"] →
              fs_of out !! q = fs !! q)))
  ∧ (∀ target generator flag, EvUpdateIndex target generator flag ∉ events_of out)
  ∧ (index = true → path_truthy patch = false →
       result_of out ≠ Ok tt
       ∧ fs_of out = fs_of unindexed
       ∧ events_of out = events_of unindexed
       ∧ (result_of unindexed = Ok tt → result_of out = Err TypeError)).
Proof.
  intros out unindexed mirror.
  pose proof (sync_events E channels local specs subdirs index verify patch progress fs)
    as Hev. fold out mirror in Hev.
  split; [|split].
  - intros Hp. rewrite Hp in Hev. cbn [negb] in Hev.
    split; [exact Hev|]. split.
    + subst out. unfold Api.sync. rewrite Hp. simpl. rewrite andb_false_r.
      intros Hok.
      apply bind_Ok_inv in Hok as (path & Hpath & Hok). rewrite (bind_Ok_fs _ _ _ _ Hpath).
      apply bind_Ok_inv in Hok as ([] & Hmk & Hok). rewrite (bind_Ok_fs _ _ _ _ Hmk).
      clear Hok.
      assert (Hrest : ∀ (m : M unit), keeps_dirs m →
        is_dir (fs_of (m (fs_of (mkdir (Api.to_path E patch)
                  (fs_of (Api._ensure_local_channel E local fs))))))
               (Api.to_path E patch) = true).
      { intros m Hm. apply Hm. by apply mkdir_ok_is_dir. }
      apply Hrest.
      apply keeps_dirs_bind; [apply keeps_dirs_diff|]. intros compared.
      apply keeps_dirs_bind.
      { apply keeps_dirs_for_each. intros. apply keeps_dirs_download_patch_instructions. }
      intros _. apply keeps_dirs_bind; [apply keeps_dirs_emit|]. intros _.
      apply keeps_dirs_bind.
      { apply keeps_dirs_for_each. intros. apply keeps_dirs_download_package. }
      intros _. apply keeps_dirs_bind; [apply keeps_dirs_emit|]. intros _.
      apply keeps_dirs_ret.
    + intros Hapart. rewrite Forall_forall in Hev. split; [|split].
      * intros p Hin. apply Hev in Hin as [->|(subdir & name & ->)]; [by left|].
        right. by apply apart_not_below.
      * intros url p sha size Hin. apply Hev in Hin as (subdir & name & ->).
        by apply apart_not_below.
      * intros q Hbelow Hnoarch Hstub. subst out.
        apply (changes_only_sync E channels local specs subdirs index verify patch
                 progress fs q).
        rewrite Hp. cbn [negb]. intros [Hq|(subdir & name & Hq)].
        -- by destruct (below_prefix_two _ _ _ _ Hbelow Hq).
        -- by apply (apart_not_prefix _ _ _ _ Hapart Hbelow Hq).
  - intros target generator flag Hin.
    rewrite Forall_forall in Hev. by apply Hev in Hin.
  - intros -> Hp. subst out unindexed.
    rewrite (sync_index_run E channels local specs subdirs verify patch progress Hp fs).
    destruct (Api.sync E channels local specs subdirs false verify patch progress fs)
      as [[[e|[]] fs1] t1]; by repeat split.
Qed.

(** A mirror synchronised in place with the index asked for: the package
    arrives, and then the run fails. *)
Lemma sync_patch_target_and_index_witness :
  result_of (Api.sync Demo.env (One "up") (AsString "mirror") (One "alpha")
               (Some (One "noarch")) true false (AsString "") false ∅) ≠ Ok tt
  ∧ fs_of (Api.sync Demo.env (One "up") (AsString "mirror") (One "alpha")
             (Some (One "noarch")) true false (AsString "") false ∅)
    = fs_of (Api.sync Demo.env (One "up") (AsString "mirror") (One "alpha")
               (Some (One "noarch")) false false (AsString "") false ∅)
  ∧ events_of (Api.sync Demo.env (One "up") (AsString "mirror") (One "alpha")
                 (Some (One "noarch")) true false (AsString "") false ∅)
    = events_of (Api.sync Demo.env (One "up") (AsString "mirror") (One "alpha")
                   (Some (One "noarch")) false false (AsString "") false ∅)
  ∧ (result_of (Api.sync Demo.env (One "up") (AsString "mirror") (One "alpha")
                  (Some (One "noarch")) false false (AsString "") false ∅) = Ok tt →
     result_of (Api.sync Demo.env (One "up") (AsString "mirror") (One "alpha")
                  (Some (One "noarch")) true false (AsString "") false ∅)
     = Err TypeError).
Proof.
  apply (proj2 (proj2 (sync_patch_target_and_index Demo.env (One "up")
                         (AsString "mirror") (One "alpha") (Some (One "noarch"))
                         true false (AsString "") false ∅)));
    reflexivity.
Defined.

(** ** Patch instructions in [sync] *)

Section patch_instruction_facts.
Variable E : Env.

Lemma for_each_Ok_inv {A} (l : list A) (body : A → M unit) fs :
  result_of (for_each l body fs) = Ok tt →
  ∀ x, x ∈ l →
    ∃ fs_x, result_of (body x fs_x) = Ok tt
            ∧ ∀ ev, ev ∈ events_of (body x fs_x) → ev ∈ events_of (for_each l body fs).
Proof.
  revert fs. induction l as [|y l IH]; intros fs Hok x Hx; [by apply elem_of_nil in Hx|].
  simpl in *. apply bind_Ok_inv in Hok as ([] & Hy & Hok).
  apply elem_of_cons in Hx as [->|Hx].
  - exists fs. split; [done|]. intros ev Hev. by apply elem_of_events_bind_l.
  - destruct (IH _ Hok x Hx) as (fs_x & Hbody & Hevs). exists fs_x. split; [done|].
    intros ev Hev. eapply elem_of_events_bind_r; [exact Hy|]. by apply Hevs.
Qed.

(** An event that the first computation never causes comes from the
    second, which therefore ran. *)
Lemma elem_of_events_bind_after {A B} (m : M A) (f : A → M B) fs ev :
  emits (λ e, e ≠ ev) m →
  ev ∈ events_of (bind m f fs) →
  ∃ a, result_of (m fs) = Ok a ∧ ev ∈ events_of (f a (fs_of (m fs))).
Proof.
  intros Hm. rewrite events_bind, elem_of_app. intros [Hin|Hin].
  - specialize (Hm fs). rewrite Forall_forall in Hm. by destruct (Hm ev Hin).
  - destruct (result_of (m fs)) as [e|a]; [by apply elem_of_nil in Hin|]. eauto.
Qed.

Lemma download_patch_instructions_Ok channels destination subdir fs :
  result_of (Api.download_patch_instructions E channels destination subdir fs) = Ok tt →
  ∃ base rest response,
    all_channel_urls E channels [subdir] = base :: rest
    ∧ requests_get E (urljoin E (base +:+ "/") External.PATCH_INSTRUCTIONS) = Ok response
    ∧ ¬ (400 ≤ status_code response < 600)
    ∧ EvHttpGet (urljoin E (base +:+ "/") External.PATCH_INSTRUCTIONS)
      ∈ events_of (Api.download_patch_instructions E channels destination subdir fs)
    ∧ EvWriteFile (destination ++ [subdir; External.PATCH_INSTRUCTIONS])
      ∈ events_of (Api.download_patch_instructions E channels destination subdir fs)
    ∧ fs_of (Api.download_patch_instructions E channels destination subdir fs)
        !! (destination ++ [subdir; External.PATCH_INSTRUCTIONS])
      = Some (File (content response)).
Proof.
  unfold Api.download_patch_instructions, External.first_item, External.get,
    External.raise_for_status, mkdir, write_bytes, bind, emit, update_fs, lift,
    ret, raise, result_of, events_of, fs_of. simpl.
  destruct (all_channel_urls E channels [subdir]) as [|base rest]; [done|].
  destruct (requests_get E _) as [e|response] eqn:Hget; [done|].
  case_bool_decide as Hstatus; [done|]. simpl.
  destruct (mkdir_parents fs destination) as [e|fs1]; [done|]. simpl.
  destruct (mkdir_parents fs1 _) as [e|fs2]; [done|]. simpl.
  destruct (write_file fs2 _ _) as [e|fs3] eqn:Hwrite; [done|]. simpl.
  intros _. exists base, rest, response.
  split; [done|]. split; [done|]. split; [done|].
  split; [set_solver|]. split; [set_solver|]. by apply write_file_lookup in Hwrite.
Qed.

(** A client or server error status makes the fetch raise [HTTPError]
    before anything is written. *)
Lemma download_patch_instructions_http_error channels destination subdir fs
    base rest response :
  all_channel_urls E channels [subdir] = base :: rest →
  requests_get E (urljoin E (base +:+ "/") External.PATCH_INSTRUCTIONS) = Ok response →
  400 ≤ status_code response < 600 →
  Api.download_patch_instructions E channels destination subdir fs
  = (Err HTTPError, fs,
     [EvHttpGet (urljoin E (base +:+ "/") External.PATCH_INSTRUCTIONS)]).
Proof.
  intros Hurls Hget Hstatus.
  unfold Api.download_patch_instructions, External.first_item, External.get,
    External.raise_for_status, bind, emit, lift, ret, raise. simpl.
  rewrite Hurls, Hget. simpl. by rewrite bool_decide_eq_true_2.
Qed.

Lemma two_below_prefix (d : Path) (a b a' b' : string) :
  d ++ [a; b] `prefix_of` d ++ [a'; b'] → a = a' ∧ b = b'.
Proof.
  intros Hpre. apply prefix_length_eq in Hpre.
  - apply app_inv_head in Hpre. by injection Hpre.
  - rewrite !length_app. simpl. lia.
Qed.

(** When the loop over the subdirs has run through, each subdir has its
    document at its place. *)
Lemma fetch_loop_files channels destination (subdirs : list string) fs :
  result_of (for_each subdirs
               (λ subdir, Api.download_patch_instructions E channels destination subdir)
               fs) = Ok tt →
  ∀ subdir, subdir ∈ subdirs →
    ∃ base rest response,
      all_channel_urls E channels [subdir] = base :: rest
      ∧ requests_get E (urljoin E (base +:+ "/") External.PATCH_INSTRUCTIONS) = Ok response
      ∧ ¬ (400 ≤ status_code response < 600)
      ∧ EvHttpGet (urljoin E (base +:+ "/") External.PATCH_INSTRUCTIONS)
        ∈ events_of (for_each subdirs
             (λ subdir, Api.download_patch_instructions E channels destination subdir) fs)
      ∧ EvWriteFile (destination ++ [subdir; External.PATCH_INSTRUCTIONS])
        ∈ events_of (for_each subdirs
             (λ subdir, Api.download_patch_instructions E channels destination subdir) fs)
      ∧ fs_of (for_each subdirs
             (λ subdir, Api.download_patch_instructions E channels destination subdir) fs)
          !! (destination ++ [subdir; External.PATCH_INSTRUCTIONS])
        = Some (File (content response)).
Proof.
  revert fs. induction subdirs as [|s l IH]; intros fs Hok subdir Hin;
    [by apply elem_of_nil in Hin|].
  cbn [for_each] in *. apply bind_Ok_inv in Hok as ([] & Hs & Hl).
  rewrite (bind_Ok_fs _ _ _ _ Hs).
  destruct (decide (subdir ∈ l)) as [Htail|Hnot].
  - destruct (IH _ Hl subdir Htail)
      as (base & rest & response & Hurls & Hget & Hstatus & Hev1 & Hev2 & Hfile).
    exists base, rest, response. repeat (split; [done|]).
    split; [|split; [|done]]; by eapply elem_of_events_bind_r.
  - apply elem_of_cons in Hin as [->|Hin]; [|done].
    destruct (download_patch_instructions_Ok _ _ _ _ Hs)
      as (base & rest & response & Hurls & Hget & Hstatus & Hev1 & Hev2 & Hfile).
    exists base, rest, response. repeat (split; [done|]).
    split; [by apply elem_of_events_bind_l|]. split; [by apply elem_of_events_bind_l|].
    rewrite <-Hfile.
    apply (changes_only_for_each
             (λ q, ∃ s', s' ∈ l
                ∧ q `prefix_of` destination ++ [s'; External.PATCH_INSTRUCTIONS])).
    + intros s' Hs'. eapply changes_only_mono;
        [|apply changes_only_download_patch_instructions]. intros q Hq. eauto.
    + intros (s' & Hs' & Hpre). apply two_below_prefix in Hpre as [-> _]. done.
Qed.

Local Ltac find_download :=
  eexists _, _; repeat first [apply list_elem_of_here | apply list_elem_of_further].

(** A download either shows among the events or leaves the file system
    as it was. *)
Lemma download_package_inert record destination verify fs :
  (∃ sha size,
     EvDownload (pr_url record) (destination ++ [pr_subdir record; pr_fn record]) sha size
     ∈ events_of (External.download_package E record destination verify fs))
  ∨ fs_of (External.download_package E record destination verify fs) = fs.
Proof.
  unfold External.download_package, External.verify_file, External._download, mkdir,
    exists_, read_bytes, write_bytes, bind, emit, update_fs, lift, ret, events_of, fs_of.
  cbv zeta. simpl.
  destruct (path_exists fs _).
  - destruct verify; [|by right].
    destruct (read_file fs _) as [e|data]; simpl; [by right|].
    destruct (bool_decide _ && bool_decide _); simpl; [by right|].
    destruct (mkdir_parents fs _) as [e|fs1]; simpl; [by right|]. left.
    destruct (conda_download E _ _ _) as [e|bytes]; simpl; [find_download|].
    destruct (write_file fs1 _ _) as [e|fs2]; simpl; find_download.
  - destruct (mkdir_parents fs _) as [e|fs1]; simpl; [by right|]. left.
    destruct (conda_download E _ _ _) as [e|bytes]; simpl; [find_download|].
    destruct (write_file fs1 _ _) as [e|fs2]; simpl; find_download.
Qed.

(** A path two levels below the destination that no download went to is
    as before after [download_package]. *)
Lemma download_package_keeps record destination verify fs (a b : string) :
  (∀ url sha size,
     EvDownload url (destination ++ [a; b]) sha size
     ∉ events_of (External.download_package E record destination verify fs)) →
  fs_of (External.download_package E record destination verify fs) !! (destination ++ [a; b])
  = fs !! (destination ++ [a; b]).
Proof.
  intros Hnone.
  destruct (decide (destination ++ [a; b]
                    `prefix_of` destination ++ [pr_subdir record; pr_fn record]))
    as [Hpre|Hpre].
  - apply two_below_prefix in Hpre as [-> ->].
    destruct (download_package_inert record destination verify fs)
      as [(sha & size & Hin)|Hsame]; [|by rewrite Hsame].
    by destruct (Hnone _ _ _ Hin).
  - by apply (changes_only_download_package E record destination verify fs).
Qed.

Lemma download_loop_keeps records destination verify fs (a b : string) :
  (∀ url sha size,
     EvDownload url (destination ++ [a; b]) sha size
     ∉ events_of (for_each records
                    (λ record, External.download_package E record destination verify)
                    fs)) →
  fs_of (for_each records
           (λ record, External.download_package E record destination verify) fs)
    !! (destination ++ [a; b])
  = fs !! (destination ++ [a; b]).
Proof.
  revert fs. induction records as [|r rs IH]; intros fs Hnone; [done|].
  cbn [for_each] in *. rewrite fs_bind.
  assert (Hhead : fs_of (External.download_package E r destination verify fs)
                    !! (destination ++ [a; b]) = fs !! (destination ++ [a; b])).
  { apply download_package_keeps. intros url sha size Hin.
    apply (Hnone url sha size). by apply elem_of_events_bind_l. }
  destruct (result_of (External.download_package E r destination verify fs))
    as [e|[]] eqn:Hr; [done|].
  rewrite IH; [done|]. intros url sha size Hin. apply (Hnone url sha size).
  by eapply elem_of_events_bind_r.
Qed.

(** The steps of [sync] after the patch instructions change the file
    system as the downloads do. *)
Lemma sync_tail_fs (downloads rebuild : M unit) ev1 ev2 fs :
  (∀ fs', fs_of (rebuild fs') = fs') →
  fs_of ((emit ev1 ;;; downloads ;;; emit ev2 ;;; rebuild) fs) = fs_of (downloads fs).
Proof.
  intros Hrebuild. unfold bind, emit, fs_of. simpl.
  destruct (downloads fs) as [[[e|[]] fs1] t1]; simpl; [done|].
  specialize (Hrebuild fs1). unfold fs_of in Hrebuild.
  by destruct (rebuild fs1) as [[r fs2] t2].
Qed.

Lemma sync_tail_events (downloads rebuild : M unit) ev1 ev2 fs ev :
  ev ∈ events_of (downloads fs) →
  ev ∈ events_of ((emit ev1 ;;; downloads ;;; emit ev2 ;;; rebuild) fs).
Proof.
  intros Hin. eapply elem_of_events_bind_r; [reflexivity|].
  by apply elem_of_events_bind_l.
Qed.
End patch_instruction_facts.

(** C6.  Once the loop over the requested subdirs has run through (the
    message that follows it is printed), [sync] has, for every requested
    subdir, sent the GET for that subdir's [patch_instructions.json],
    received a status that is no client or server error, and written the
    body to [target/subdir/patch_instructions.json], the target being the
    patch directory when one is given and the mirror otherwise; the file
    holds the body when [sync] ends, however it ends, unless a package was
    downloaded onto it.  Every run that returns, and every run that would
    return without the index, gets that far.  Nothing here depends on the
    records to add.  A client or server error status makes the fetch
    raise [HTTPError] before anything is written, and whatever the fetch
    loop raises is what [sync] raises. *)
Theorem sync_fetches_patch_instructions (E : Env) (channels : OneOrMoreStrings)
    (local : PathOrString) (specs : OneOrMoreStrings)
    (subdirs : option OneOrMoreStrings) (index verify : bool)
    (patch : PathOrString) (progress : bool) (fs : FS) :
  let out := Api.sync E channels local specs subdirs index verify patch progress fs in
  let unindexed :=
    Api.sync E channels local specs subdirs false verify patch progress fs in
  let mirror := Api.to_path E local in
  let target := if negb (path_truthy patch) then mirror else Api.to_path E patch in
  let upstream := Api._ensure_list channels in
  let requested := Api._ensure_subdirs E subdirs in
  let fetch_url (base : string) := urljoin E (base +:+ "/") External.PATCH_INSTRUCTIONS in
  let fetched := EvPrint "Downloading patches instructions: done" in
  let before_fetch :=
    (path <- Api._ensure_local_channel E local ;;
     mkdir target ;;;
     Api.diff E (AsPath path) (Many upstream) specs (Some (Many requested))) in
  (fetched ∈ events_of out →
     ∀ subdir, subdir ∈ requested →
       ∃ base rest response,
         all_channel_urls E upstream [subdir] = base :: rest
         ∧ requests_get E (fetch_url base) = Ok response
         ∧ ¬ (400 ≤ status_code response < 600)
         ∧ EvHttpGet (fetch_url base) ∈ events_of out
         ∧ EvWriteFile (target ++ [subdir; External.PATCH_INSTRUCTIONS]) ∈ events_of out
         ∧ ((∀ url sha size,
               EvDownload url (target ++ [subdir; External.PATCH_INSTRUCTIONS]) sha size
               ∉ events_of out) →
            fs_of out !! (target ++ [subdir; External.PATCH_INSTRUCTIONS])
            = Some (File (content response))))
  ∧ (result_of out = Ok tt ∨ result_of unindexed = Ok tt → fetched ∈ events_of out)
  ∧ (∀ subdir fs' base rest response,
       all_channel_urls E upstream [subdir] = base :: rest →
       requests_get E (fetch_url base) = Ok response →
       400 ≤ status_code response < 600 →
       Api.download_patch_instructions E upstream target subdir fs'
       = (Err HTTPError, fs', [EvHttpGet (fetch_url base)]))
  ∧ (∀ compared fs1 t1 e,
       before_fetch fs = (Ok compared, fs1, t1) →
       result_of (for_each requested
                    (λ subdir, Api.download_patch_instructions E upstream target subdir)
                    fs1) = Err e →
       result_of out = Err e).
Proof.
  intros out unindexed mirror target upstream requested fetch_url fetched before_fetch.
  assert (Hreturns : ∀ idx,
    result_of (Api.sync E channels local specs subdirs idx verify patch progress fs)
    = Ok tt →
    fetched ∈ events_of (Api.sync E channels local specs subdirs idx verify patch
                           progress fs)).
  { intros idx. unfold Api.sync. intros Hok.
    apply bind_Ok_inv in Hok as (path & Hpath & Hok).
    apply bind_Ok_inv in Hok as (? & Hmk & Hok).
    apply bind_Ok_inv in Hok as (compared & Hdiff & Hok).
    apply bind_Ok_inv in Hok as ([] & Hpatches & _).
    eapply elem_of_events_bind_r; [exact Hpath|].
    eapply elem_of_events_bind_r; [exact Hmk|].
    eapply elem_of_events_bind_r; [exact Hdiff|].
    eapply elem_of_events_bind_r; [exact Hpatches|].
    apply elem_of_events_bind_l. by left. }
  split; [|split; [|split]].
  - subst out. unfold Api.sync. intros Hfetched subdir Hsubdir.
    apply elem_of_events_bind_after in Hfetched as (path & Hpath & Hfetched);
      [|by apply emits_ensure_local_channel].
    pose proof (ensure_local_channel_result E local fs path Hpath) as Heq.
    apply elem_of_events_bind_after in Hfetched as ([] & Hmk & Hfetched);
      [|by apply emits_mkdir].
    apply elem_of_events_bind_after in Hfetched as (compared & Hdiff & Hfetched);
      [|apply emits_diff].
    apply elem_of_events_bind_after in Hfetched as ([] & Hpatches & _);
      [|apply emits_for_each; intros; by apply emits_download_patch_instructions].
    destruct (fetch_loop_files E _ _ _ _ Hpatches subdir Hsubdir)
      as (base & rest & response & Hurls & Hget & Hstatus & Hev1 & Hev2 & Hfile).
    exists base, rest, response.
    subst target mirror. rewrite <-Heq.
    split; [done|]. split; [done|]. split; [done|].
    split; [|split].
    + eapply elem_of_events_bind_r; [exact Hpath|].
      eapply elem_of_events_bind_r; [exact Hmk|].
      eapply elem_of_events_bind_r; [exact Hdiff|].
      by apply elem_of_events_bind_l.
    + eapply elem_of_events_bind_r; [exact Hpath|].
      eapply elem_of_events_bind_r; [exact Hmk|].
      eapply elem_of_events_bind_r; [exact Hdiff|].
      by apply elem_of_events_bind_l.
    + intros Hnone.
      rewrite (bind_Ok_fs _ _ _ _ Hpath), (bind_Ok_fs _ _ _ _ Hmk),
        (bind_Ok_fs _ _ _ _ Hdiff), (bind_Ok_fs _ _ _ _ Hpatches).
      rewrite sync_tail_fs.
      2:{ intros fs'. destruct (index && negb (path_truthy patch)); done. }
      rewrite download_loop_keeps; [exact Hfile|].
      intros url sha size Hin. apply (Hnone url sha size).
      eapply elem_of_events_bind_r; [exact Hpath|].
      eapply elem_of_events_bind_r; [exact Hmk|].
      eapply elem_of_events_bind_r; [exact Hdiff|].
      eapply elem_of_events_bind_r; [exact Hpatches|].
      by apply sync_tail_events.
  - intros [Hok|Hok]; [by apply Hreturns|].
    subst out unindexed. destruct (index && negb (path_truthy patch)) eqn:Hidx.
    + apply andb_true_iff in Hidx as [-> Hp]. apply negb_true_iff in Hp.
      pose proof (sync_index_run E channels local specs subdirs verify patch progress
                    Hp fs) as Hrun.
      apply Hreturns in Hok.
      rewrite Hrun.
      by destruct (Api.sync E channels local specs subdirs false verify patch progress fs)
        as [[[e|[]] fs1] t1].
    + apply Hreturns in Hok. revert Hok. unfold Api.sync. rewrite Hidx.
      by rewrite andb_false_l.
  - intros subdir fs' base rest response.
    apply download_patch_instructions_http_error.
  - subst out before_fetch target mirror upstream requested. cbv zeta.
    intros compared fs1 t1 e Hbefore Hloop.
    pose proof (f_equal result_of Hbefore) as Hr.
    pose proof (f_equal fs_of Hbefore) as Hf.
    change (fs_of (Ok compared, fs1, t1)) with fs1 in Hf.
    change (result_of (Ok compared, fs1, t1)) with (Ok (A:=exn) compared) in Hr.
    apply bind_Ok_inv in Hr as (path & Hpath & Hr).
    rewrite (bind_Ok_fs _ _ _ _ Hpath) in Hf.
    pose proof (ensure_local_channel_result E local fs path Hpath) as ->.
    apply bind_Ok_inv in Hr as ([] & Hmk & Hr).
    rewrite (bind_Ok_fs _ _ _ _ Hmk) in Hf.
    unfold Api.sync.
    rewrite result_bind, Hpath. rewrite result_bind, Hmk.
    rewrite result_bind, Hr. rewrite result_bind, Hf. by rewrite Hloop.
Qed.

(** A run into a patch directory: the document is at its place. *)
Lemma sync_fetches_patch_instructions_witness :
  ∃ response,
    requests_get Demo.env "up/noarch/patch_instructions.json" = Ok response
    ∧ fs_of (Api.sync Demo.env (One "up") (AsString "mirror") (One "alpha")
               (Some (One "noarch")) true false (AsString "patch") false ∅)
        !! ["patch"; "noarch"; "patch_instructions.json"]
      = Some (File (content response)).
Proof.
  destruct (proj1 (sync_fetches_patch_instructions Demo.env (One "up")
                     (AsString "mirror") (One "alpha") (Some (One "noarch"))
                     true false (AsString "patch") false ∅))
    with (subdir := "noarch")
    as (base & rest & response & Hurls & Hget & _ & _ & _ & Hfile).
  - vm_compute. set_solver.
  - vm_compute. set_solver.
  - injection Hurls as <- _. exists response. split; [exact Hget|].
    apply Hfile. intros url sha size Hin. vm_compute in Hin.
    repeat (apply elem_of_cons in Hin as [Hin|Hin]; [discriminate|]).
    by apply elem_of_nil in Hin.
Defined.

(** ** The order of filenames *)

Section filename_order.
Lemma ltb_asym (a b : string) : String.ltb a b = true → String.ltb b a = false.
Proof.
  unfold String.ltb. rewrite (String.compare_antisym b a).
  by destruct (String.compare a b).
Qed.

Lemma ltb_irrefl (a : string) : String.ltb a a = false.
Proof.
  destruct (String.ltb a a) eqn:Hlt; [|done].
  pose proof (ltb_asym a a Hlt). congruence.
Qed.

Lemma ltb_lt (a b : string) : String.ltb a b = true ↔ String_as_OT.lt a b.
Proof.
  rewrite <-String_as_OT.cmp_lt. unfold String.ltb, String_as_OT.cmp.
  by destruct (String.compare a b).
Qed.

Lemma fn_le_trans (a b c : string) : fn_le a b → fn_le b c → fn_le a c.
Proof.
  unfold fn_le. intros Hab Hbc.
  destruct (String.ltb c a) eqn:Hca; [|done].
  destruct (String.compare c b) eqn:Hcb.
  - apply String_as_OT.cmp_eq in Hcb as ->. congruence.
  - unfold String.ltb in Hbc. by rewrite Hcb in Hbc.
  - assert (Hbc' : String.ltb b c = true).
    { unfold String.ltb. rewrite String.compare_antisym, Hcb. done. }
    apply ltb_lt in Hbc', Hca.
    pose proof (String_as_OT.lt_trans _ _ _ Hbc' Hca) as Hba.
    apply ltb_lt in Hba. congruence.
Qed.

Lemma elem_of_insert_by_fn r l x : x ∈ insert_by_fn r l ↔ x = r ∨ x ∈ l.
Proof.
  induction l as [|y l IH]; simpl; [set_solver|].
  destruct (String.ltb (pr_fn y) (pr_fn r)); set_solver.
Qed.

Lemma elem_of_sorted_by_fn l x : x ∈ sorted_by_fn l ↔ x ∈ l.
Proof.
  unfold sorted_by_fn. induction l as [|y l IH]; simpl; [done|].
  rewrite elem_of_insert_by_fn, IH. set_solver.
Qed.

Lemma insert_by_fn_sorted r l :
  StronglySorted (λ x y, fn_le (pr_fn x) (pr_fn y)) l →
  StronglySorted (λ x y, fn_le (pr_fn x) (pr_fn y)) (insert_by_fn r l).
Proof.
  induction l as [|y l IH]; intros Hl; simpl.
  - repeat constructor.
  - apply StronglySorted_cons in Hl as [Hy Hl].
    destruct (String.ltb (pr_fn y) (pr_fn r)) eqn:Hlt.
    + apply StronglySorted_cons. split; [|by apply IH].
      apply Forall_forall. intros x [->|Hx]%elem_of_insert_by_fn.
      * by apply ltb_asym.
      * rewrite Forall_forall in Hy. by apply Hy.
    + apply StronglySorted_cons. split.
      * constructor; [done|]. apply Forall_forall. intros x Hx.
        rewrite Forall_forall in Hy. apply fn_le_trans with (pr_fn y); [done|].
        by apply Hy.
      * by apply StronglySorted_cons.
Qed.

(** [sorted] returns the records in ascending order of filename. *)
Lemma sorted_by_fn_sorted l :
  StronglySorted (λ x y, fn_le (pr_fn x) (pr_fn y)) (sorted_by_fn l).
Proof.
  unfold sorted_by_fn. induction l as [|y l IH]; simpl; [constructor|].
  by apply insert_by_fn_sorted.
Qed.

Lemma sorted_lookup_lt (l : list string) (i j : nat) a b :
  StronglySorted fn_le l →
  l !! i = Some a → l !! j = Some b → String.ltb a b = true → (i < j)%nat.
Proof.
  intros Hl. revert i j. induction Hl as [|x l Hl IH Hx]; intros i j Hi Hj Hab.
  - by rewrite lookup_nil in Hi.
  - destruct i as [|i], j as [|j]; simpl in *.
    + injection Hi as ->. injection Hj as ->. by rewrite ltb_irrefl in Hab.
    + lia.
    + injection Hj as ->. rewrite Forall_forall in Hx.
      assert (fn_le b a) as Hba by (apply Hx; by eapply list_elem_of_lookup_2).
      unfold fn_le in Hba. congruence.
    + apply ->Nat.succ_lt_mono. by apply IH.
Qed.
End filename_order.

(** ** The downloads of [sync] *)

Section download_order.
Variable E : Env.

Lemma basename_app2 (d : Path) (a b : string) : basename (d ++ [a; b]) = b.
Proof.
  unfold basename. change [a; b] with ([a] ++ [b]). rewrite app_assoc.
  apply List.last_last.
Qed.

Lemma download_names_app t1 t2 :
  download_names (t1 ++ t2) = download_names t1 ++ download_names t2.
Proof. apply omap_app. Qed.

Lemma download_names_none t : Forall no_download t → download_names t = [].
Proof.
  induction 1 as [|ev t Hev _ IH]; [done|].
  destruct ev; first [exact IH | done].
Qed.

(** One call of [download_package] downloads at most once, under the
    filename of its record. *)
Lemma download_package_names record destination verify fs :
  download_names (events_of (External.download_package E record destination verify fs))
  = []
  ∨ download_names
      (events_of (External.download_package E record destination verify fs))
    = [pr_fn record].
Proof.
  unfold External.download_package, External.verify_file, External._download,
    mkdir, write_bytes, exists_, read_bytes, bind, emit, update_fs, lift, ret,
    events_of. simpl.
  repeat (case_match; simplify_eq/=); unfold download_names; simpl;
    rewrite ?basename_app2; auto.
Qed.
End download_order.

Section download_loop.
Variable E : Env.

Lemma loop_names_elem records destination verify fs name :
  name ∈ download_names (events_of
           (for_each records
              (λ record, External.download_package E record destination verify) fs)) →
  name ∈ pr_fn <$> records.
Proof.
  revert fs. induction records as [|r rs IH]; intros fs; simpl.
  - by intros ?%elem_of_nil.
  - rewrite events_bind, download_names_app, elem_of_app. intros [Hin|Hin].
    + destruct (download_package_names E r destination verify fs) as [H|H];
        rewrite H in Hin; [by apply elem_of_nil in Hin|].
      apply list_elem_of_singleton in Hin as ->. by left.
    + destruct (result_of _); [by apply elem_of_nil in Hin|]. right. by eapply IH.
Qed.

Lemma loop_names_sorted records destination verify fs :
  StronglySorted (λ x y, fn_le (pr_fn x) (pr_fn y)) records →
  StronglySorted fn_le
    (download_names (events_of
       (for_each records
          (λ record, External.download_package E record destination verify) fs))).
Proof.
  intros Hs. revert fs. induction Hs as [|r rs Hrs IH Hr]; intros fs; simpl.
  - constructor.
  - rewrite events_bind, download_names_app.
    set (rest := download_names _).
    set (later := download_names _).
    assert (Hlater : StronglySorted fn_le later ∧ ∀ n, n ∈ later → n ∈ pr_fn <$> rs).
    { subst later. destruct (result_of _).
      - split; [constructor|]. by intros n ?%elem_of_nil.
      - split; [apply IH|]. intros n. apply loop_names_elem. }
    subst rest.
    destruct (download_package_names E r destination verify fs) as [-> | ->]; simpl;
      [apply Hlater|].
    apply StronglySorted_cons. split; [|apply Hlater].
    apply Forall_forall. intros n Hn. apply Hlater in Hn.
    apply list_elem_of_fmap in Hn as (y & -> & Hy).
    rewrite Forall_forall in Hr. by apply Hr.
Qed.

Lemma names_bind_skip {A B} (m : M A) (f : A → M B) fs :
  emits no_download m →
  download_names (events_of (bind m f fs))
  = match result_of (m fs) with
    | Ok a => download_names (events_of (f a (fs_of (m fs))))
    | Err _ => []
    end.
Proof.
  intros Hm. rewrite events_bind, download_names_app.
  rewrite (download_names_none _ (Hm fs)). simpl. by destruct (result_of (m fs)).
Qed.

Lemma names_bind_last {A B} (m : M A) (f : A → M B) fs :
  (∀ a, emits no_download (f a)) →
  download_names (events_of (bind m f fs)) = download_names (events_of (m fs)).
Proof.
  intros Hf. rewrite events_bind, download_names_app.
  destruct (result_of (m fs)) as [e|a]; [by rewrite app_nil_r|].
  by rewrite (download_names_none _ (Hf a _)), app_nil_r.
Qed.

(** The downloads of one [sync] happen in ascending order of filename. *)
Lemma sync_download_names_sorted channels local specs subdirs index verify patch
    progress fs :
  StronglySorted fn_le
    (download_names (events_of
       (Api.sync E channels local specs subdirs index verify patch progress fs))).
Proof.
  unfold Api.sync.
  rewrite names_bind_skip by (by apply emits_ensure_local_channel).
  destruct (result_of (Api._ensure_local_channel E local fs)) as [e|path];
    [constructor|].
  rewrite names_bind_skip by (by apply emits_mkdir).
  destruct (result_of (mkdir _ _)); [constructor|].
  rewrite names_bind_skip by apply emits_diff.
  destruct (result_of (Api.diff _ _ _ _ _ _)) as [e|compared]; [constructor|].
  rewrite names_bind_skip
    by (apply emits_for_each; intros; by apply emits_download_patch_instructions).
  destruct (result_of (for_each _ _ _)); [constructor|].
  rewrite names_bind_skip by (by apply emits_emit).
  destruct (result_of (emit _ _)); [constructor|].
  rewrite names_bind_last.
  - apply loop_names_sorted, sorted_by_fn_sorted.
  - intros _. apply emits_bind; [by apply emits_emit|]. intros _.
    destruct (index && negb (path_truthy patch)); [|apply emits_ret].
    apply emits_bind; [by apply emits_update_index|]. intros _. by apply emits_emit.
Qed.
End download_loop.

(** C8.  Within one [sync], of two downloads the one whose filename sorts
    first happens first: if the [i]-th download is of filename [a], the
    [j]-th of filename [b], and [a] sorts before [b], then [i < j]. *)
Theorem sync_downloads_in_filename_order (E : Env) (channels : OneOrMoreStrings)
    (local : PathOrString) (specs : OneOrMoreStrings)
    (subdirs : option OneOrMoreStrings) (index verify : bool)
    (patch : PathOrString) (progress : bool) (fs : FS)
    (i j : nat) (a b : string) :
  download_names (events_of
    (Api.sync E channels local specs subdirs index verify patch progress fs)) !! i
  = Some a →
  download_names (events_of
    (Api.sync E channels local specs subdirs index verify patch progress fs)) !! j
  = Some b →
  String.ltb a b = true →
  (i < j)%nat.
Proof.
  apply sorted_lookup_lt, sync_download_names_sorted.
Qed.

Lemma sync_downloads_in_filename_order_witness :
  download_names (events_of
    (Api.sync Demo.env (One "up") (AsString "fresh") (One "alpha") None true true
       (AsString "") false ∅))
  = ["alpha-1.0-0.tar.bz2"; "beta-2.1-py_0.tar.bz2"]
  ∧ (0 < 1)%nat.
Proof.
  split; [vm_compute; reflexivity|].
  apply (sync_downloads_in_filename_order Demo.env (One "up") (AsString "fresh")
           (One "alpha") None true true (AsString "") false ∅ 0 1
           "alpha-1.0-0.tar.bz2" "beta-2.1-py_0.tar.bz2");
    vm_compute; reflexivity.
Defined.

(** A run into a patch directory, and the same run when upstream answers
    404. *)
Example sync_into_patch_run :
  let out :=
    Api.sync Demo.env (One "up") (AsString "mirror") (One "alpha") (Some (One "noarch"))
      true false (AsString "patch") false ∅ in
  result_of out = Ok tt
  ∧ events_of out =
      [EvMkdir ["mirror"; "noarch"];
       EvWriteFile ["mirror"; "noarch"; "repodata.json"];
       EvMkdir ["patch"];
       EvHttpGet "up/noarch/patch_instructions.json";
       EvMkdir ["patch"]; EvMkdir ["patch"; "noarch"];
       EvWriteFile ["patch"; "noarch"; "patch_instructions.json"];
       EvPrint "Downloading patches instructions: done";
       EvMkdir ["patch"; "noarch"];
       EvDownload "https://up/noarch/beta-2.1-py_0.tar.bz2"
         ["patch"; "noarch"; "beta-2.1-py_0.tar.bz2"] None None;
       EvWriteFile ["patch"; "noarch"; "beta-2.1-py_0.tar.bz2"];
       EvPrint "Downloading packages: done"].
Proof. split; vm_compute; reflexivity. Qed.

Example sync_http_error_run :
  let out :=
    Api.sync Demo.env_404 (One "up") (AsString "mirror") (One "alpha")
      (Some (One "noarch")) true false (AsString "patch") false ∅ in
  result_of out = Err HTTPError
  ∧ events_of out =
      [EvMkdir ["mirror"; "noarch"];
       EvWriteFile ["mirror"; "noarch"; "repodata.json"];
       EvMkdir ["patch"];
       EvHttpGet "up/noarch/patch_instructions.json"].
Proof. split; vm_compute; reflexivity. Qed.

(** A file that verifies is left alone. *)
Example download_package_verified_run :
  External.download_package Demo.env Demo.pkg_a ["mirror"] true Demo.mirror_with_a
  = (Ok tt, Demo.mirror_with_a, []).
Proof. vm_compute. reflexivity. Qed.

(** * Further properties *)

(** ** [compare_records] *)

(** X1.  [compare_records] finds no difference in either direction exactly
    when both sides have the same keys; this is what the test of [query]
    asserts with [not added] and [not removed]. *)
Theorem compare_records_empty_iff (left right : list PackageRecord) :
  compare_records left right = (∅, ∅) ↔ record_keys left = record_keys right.
Proof.
  destruct (compare_records_by_key_aux left right) as [H1 H2].
  unfold record_keys. split.
  - intros Heq. apply set_eq. intros k. rewrite !elem_of_list_to_set. split.
    + intros (r & -> & Hr)%list_elem_of_fmap.
      destruct (decide (no_channel_key r ∈ no_channel_key <$> right)); [done|].
      assert (r ∈ fst (compare_records left right)) as Hin by by apply H1.
      rewrite Heq in Hin. set_solver.
    + intros (r & -> & Hr)%list_elem_of_fmap.
      destruct (decide (no_channel_key r ∈ no_channel_key <$> left)); [done|].
      assert (r ∈ snd (compare_records left right)) as Hin by by apply H2.
      rewrite Heq in Hin. set_solver.
  - intros Heq.
    assert (Hk : ∀ k, k ∈ no_channel_key <$> left ↔ k ∈ no_channel_key <$> right).
    { intros k. rewrite <-!(elem_of_list_to_set (C:=gset RecordKey)). by rewrite Heq. }
    destruct (compare_records left right) as [only_left only_right] eqn:Hc.
    simpl in *. f_equal; apply set_eq; intros r.
    + rewrite H1, elem_of_empty. split; [|done]. intros [Hr Hno]. apply Hno, Hk.
      by apply list_elem_of_fmap_2.
    + rewrite H2, elem_of_empty. split; [|done]. intros [Hr Hno]. apply Hno, Hk.
      by apply list_elem_of_fmap_2.
Qed.

(** X2.  Only the records present matter to [compare_records], not their
    order nor how often they occur: two pairs of iterables with the same
    records give the same two sets. *)
Theorem compare_records_same_elements (left left' right right' : list PackageRecord) :
  (∀ r, r ∈ left ↔ r ∈ left') →
  (∀ r, r ∈ right ↔ r ∈ right') →
  compare_records left right = compare_records left' right'.
Proof.
  intros Hl Hr.
  destruct (compare_records_by_key_aux left right) as [H1 H2].
  destruct (compare_records_by_key_aux left' right') as [H1' H2'].
  assert (Hk : ∀ (l l' : list PackageRecord), (∀ r, r ∈ l ↔ r ∈ l') →
    ∀ k, k ∈ no_channel_key <$> l ↔ k ∈ no_channel_key <$> l').
  { intros l l' Hll k. rewrite !list_elem_of_fmap. naive_solver. }
  destruct (compare_records left right) as [a b].
  destruct (compare_records left' right') as [a' b']. simpl in *.
  f_equal; apply set_eq; intros r.
  - rewrite H1, H1', Hl. by rewrite (Hk right right' Hr).
  - rewrite H2, H2', Hr. by rewrite (Hk left left' Hl).
Qed.

Lemma compare_records_same_elements_witness :
  compare_records [Demo.pkg_a; Demo.pkg_b; Demo.pkg_a] [Demo.pkg_a_mirror]
  = compare_records [Demo.pkg_b; Demo.pkg_a] [Demo.pkg_a_mirror; Demo.pkg_a_mirror].
Proof.
  apply compare_records_same_elements; intros r; set_solver.
Defined.

(** ** Reading the channels *)

(** X4.  When the local mirror can be read and upstream resolves, [diff]
    returns the pair (added, removed): added holds exactly the upstream
    records whose key no local record has, removed exactly the local
    records whose key no upstream record has. *)
Theorem diff_added_removed (E : Env) (local : PathOrString)
    (upstream specs : OneOrMoreStrings) (subdirs : option OneOrMoreStrings)
    (fs : FS) (locals upstreams : list PackageRecord) :
  result_of (local_records E local subdirs fs) = Ok locals →
  finder_search E fs (Api._ensure_list upstream) (Api._ensure_subdirs E subdirs)
    (Api._ensure_list specs) = Ok upstreams →
  ∃ added removed,
    Api.diff E local upstream specs subdirs fs = (Ok (added, removed), fs, [])
    ∧ (∀ r, r ∈ added ↔ r ∈ upstreams ∧ no_channel_key r ∉ no_channel_key <$> locals)
    ∧ (∀ r, r ∈ removed ↔ r ∈ locals ∧ no_channel_key r ∉ no_channel_key <$> upstreams).
Proof.
  intros Hlocal Hup.
  assert (Hrun : local_records E local subdirs fs = (Ok locals, fs, [])).
  { destruct (reads_only_iterate E
      (One (as_uri E (resolve E (Api.to_path E local))))
      (Some (Many (Api._ensure_subdirs E subdirs))) fs) as [Hfs Hev].
    unfold local_records in *. unfold result_of, fs_of, events_of in *.
    destruct (Api.iterate E _ _ fs) as [[r fs'] t]. simpl in *. by subst. }
  exists (snd (compare_records locals upstreams)), (fst (compare_records locals upstreams)).
  split; [by apply diff_readable|].
  destruct (compare_records_by_key_aux locals upstreams) as [H1 H2]. done.
Qed.

Lemma diff_added_removed_witness :
  ∃ added removed,
    Api.diff Demo.env (AsString "mirror") (One "up") (One "alpha") None ∅
    = (Ok (added, removed), ∅, [])
    ∧ (∀ r, r ∈ added ↔ r ∈ [Demo.pkg_b; Demo.pkg_a]
                        ∧ no_channel_key r ∉ no_channel_key <$> [Demo.pkg_a_mirror])
    ∧ (∀ r, r ∈ removed ↔ r ∈ [Demo.pkg_a_mirror]
                          ∧ no_channel_key r
                            ∉ no_channel_key <$> [Demo.pkg_b; Demo.pkg_a]).
Proof.
  apply (diff_added_removed Demo.env (AsString "mirror") (One "up") (One "alpha")
           None ∅ [Demo.pkg_a_mirror] [Demo.pkg_b; Demo.pkg_a]).
  - vm_compute. reflexivity.
  - reflexivity.
Defined.

(** Running a computation whose first step is known. *)
Lemma bind_run {A B} (m : M A) (f : A → M B) (fs : FS) a fs1 t1 :
  m fs = (Ok a, fs1, t1) →
  bind m f fs = (let '(r, fs2, t2) := f a fs1 in (r, fs2, t1 ++ t2)).
Proof. intros Hm. unfold bind. by rewrite Hm. Qed.

(** X5.  [query_channel] yields, spec after spec and in that order, what
    each query of the channel returns; nothing is deduplicated, so a record
    that matches two specs is yielded twice. *)
Theorem query_channel_concatenates (E : Env) (channel : string) (specs : list string)
    (subdirs : option (list string)) (fs : FS)
    (answer : string → list PackageRecord) :
  (∀ spec, spec ∈ specs → query_all E fs spec [channel] subdirs = Ok (answer spec)) →
  External.query_channel E channel specs subdirs fs
  = (Ok (concat (answer <$> specs)), fs, []).
Proof.
  intros Hall. unfold External.query_channel.
  assert (Hmap : map_m specs (λ spec,
      fs0 <- get_fs ;; lift (query_all E fs0 spec [channel] subdirs)) fs
    = (Ok (answer <$> specs), fs, [])).
  { induction specs as [|spec specs IH]; [done|]. simpl.
    rewrite (bind_run _ _ fs (answer spec) fs []).
    2:{ rewrite (bind_run _ _ fs fs fs []) by done. unfold lift.
        by rewrite (Hall spec) by by left. }
    rewrite (bind_run _ _ fs (answer <$> specs) fs []); [done|].
    apply IH. intros s Hs. apply Hall. by right. }
  by rewrite (bind_run _ _ fs (answer <$> specs) fs []).
Qed.

Lemma query_channel_concatenates_witness :
  External.query_channel Demo.env "file://mirror" ["alpha"; "alpha*"] None ∅
  = (Ok [Demo.pkg_a_mirror; Demo.pkg_a_mirror], ∅, []).
Proof.
  apply (query_channel_concatenates Demo.env "file://mirror" ["alpha"; "alpha*"] None ∅
           (λ _, [Demo.pkg_a_mirror])).
  intros spec _. reflexivity.
Defined.

(** ** Failures of the external calls *)

(** X6.  When upstream answers the GET with a client or server error
    status, [fetch_patch_instructions] raises [HTTPError] right after the
    request: no directory is created and no file is written, with or
    without packages to remove. *)
Theorem fetch_patch_instructions_http_error (E : Env) (channel : string)
    (destination : Path) (subdir : string)
    (packages_to_remove : option (PyIterable PackageRecord)) (fs : FS)
    (base : string) (rest : list string) (response : Response) :
  all_channel_urls E [channel] [subdir] = base :: rest →
  requests_get E (urljoin E (base +:+ "/") External.PATCH_INSTRUCTIONS) = Ok response →
  400 ≤ status_code response < 600 →
  External.fetch_patch_instructions E channel destination subdir packages_to_remove fs
  = (Err HTTPError, fs,
     [EvHttpGet (urljoin E (base +:+ "/") External.PATCH_INSTRUCTIONS)]).
Proof.
  intros Hurls Hget Hstatus.
  unfold External.fetch_patch_instructions, External.first_item, External.get,
    External.raise_for_status, bind, emit, lift, ret, raise. simpl.
  rewrite Hurls, Hget. simpl. by rewrite bool_decide_eq_true_2.
Qed.

Lemma fetch_patch_instructions_http_error_witness :
  External.fetch_patch_instructions Demo.env_404 "up" ["patch"] "noarch"
    (Some (Sized [Demo.pkg_a])) ∅
  = (Err HTTPError, ∅, [EvHttpGet "up/noarch/patch_instructions.json"]).
Proof.
  apply (fetch_patch_instructions_http_error Demo.env_404 "up" ["patch"] "noarch"
           (Some (Sized [Demo.pkg_a])) ∅ "up/noarch" [] (mkResponse 404 []));
    [reflexivity|reflexivity|simpl; lia].
Defined.

(** Running a computation whose first step raises. *)
Lemma bind_run_err {A B} (m : M A) (f : A → M B) (fs : FS) e fs1 t1 :
  m fs = (Err e, fs1, t1) → bind m f fs = (Err e, fs1, t1).
Proof. intros Hm. unfold bind. by rewrite Hm. Qed.

Lemma tar_add_run (source arcname : Path) (fs : FS) :
  External.tar_add source arcname fs
  = match fs !! source with
    | None => (Err FileNotFoundError, fs, [])
    | Some n =>
        (Ok ((arcname, n) ::
             omap (λ p, (λ n', (arcname ++ relative_to p source, n')) <$> fs !! p)
                  (glob_all fs source)), fs, [])
    end.
Proof.
  unfold External.tar_add, bind, get_fs. simpl. by destruct (fs !! source).
Qed.

Lemma map_m_tar_add_missing (target : Path) (patches : list Path) (fs : FS)
    (patch : Path) :
  patch ∈ patches →
  fs !! (target ++ patch) = None →
  map_m patches (λ p, External.tar_add (target ++ p) p) fs
  = (Err FileNotFoundError, fs, []).
Proof.
  induction patches as [|p ps IH]; intros Hin Hnone; [by apply elem_of_nil in Hin|].
  cbn [map_m].
  destruct (fs !! (target ++ p)) as [n|] eqn:Hp.
  - erewrite bind_run; [|by rewrite tar_add_run, Hp].
    apply elem_of_cons in Hin as [->|Hin]; [congruence|].
    erewrite bind_run_err; [done|by apply IH].
  - erewrite bind_run_err; [done|by rewrite tar_add_run, Hp].
Qed.

(** X7.  When the patch instructions of one of the subdirs are missing
    under the target, [update_index] raises [FileNotFoundError] while it
    fills the archive, and the index builder is not called. *)
Theorem update_index_missing_patch_raises (E : Env) (target : Path)
    (subdirs : list string) (silent : bool) (fs : FS) (subdir : string) :
  subdir ∈ subdirs →
  fs !! (target ++ [subdir; External.PATCH_INSTRUCTIONS]) = None →
  External.update_index E target (Some subdirs) silent fs
  = (Err FileNotFoundError, fs, []).
Proof.
  intros Hin Hnone. unfold External.update_index.
  assert (Hmap :
    map_m ((λ s : string, [s; External.PATCH_INSTRUCTIONS]) <$> subdirs)
      (λ p, External.tar_add (target ++ p) p) fs
    = (Err FileNotFoundError, fs, [])).
  { apply map_m_tar_add_missing with [subdir; External.PATCH_INSTRUCTIONS]; [|done].
    by apply (list_elem_of_fmap_2 (λ s : string, [s; External.PATCH_INSTRUCTIONS])). }
  destruct subdirs as [|s0 l]; [by apply elem_of_nil in Hin|].
  cbn [fmap list_fmap] in *.
  erewrite bind_run_err; [done|]. by erewrite bind_run_err.
Qed.

Lemma update_index_missing_patch_raises_witness :
  External.update_index Demo.env ["mirror"] (Some ["noarch"; "linux-64"]) false
    Demo.mirror_and_patch
  = (Err FileNotFoundError, Demo.mirror_and_patch, []).
Proof.
  apply (update_index_missing_patch_raises Demo.env ["mirror"] ["noarch"; "linux-64"]
           false Demo.mirror_and_patch "linux-64").
  - set_solver.
  - vm_compute. reflexivity.
Defined.

(** X8.  When [destination/subdir/filename] is a directory, [path.exists()]
    holds: with [verify] the file is read to be hashed and
    [IsADirectoryError] is raised; without [verify] the record is skipped
    as if it had been downloaded.  Nothing is fetched in either case. *)
Theorem download_package_on_directory (E : Env) (record : PackageRecord)
    (destination : Path) (fs : FS) :
  fs !! (destination ++ [pr_subdir record; pr_fn record]) = Some Dir →
  External.download_package E record destination true fs
  = (Err IsADirectoryError, fs, [])
  ∧ External.download_package E record destination false fs = (Ok tt, fs, []).
Proof.
  intros Hdir.
  assert (Hex : path_exists fs (destination ++ [pr_subdir record; pr_fn record]) = true).
  { unfold path_exists. by rewrite (is_dir_lookup _ _ Hdir). }
  unfold External.download_package, External.verify_file, bind, exists_, read_bytes,
    read_file. simpl. rewrite Hex, Hdir. done.
Qed.

Lemma download_package_on_directory_witness :
  External.download_package Demo.env Demo.pkg_a ["mirror"] true
    {[ ["mirror"; "linux-64"; "alpha-1.0-0.tar.bz2"] := Dir ]}
  = (Err IsADirectoryError,
     {[ ["mirror"; "linux-64"; "alpha-1.0-0.tar.bz2"] := Dir ]}, [])
  ∧ External.download_package Demo.env Demo.pkg_a ["mirror"] false
      {[ ["mirror"; "linux-64"; "alpha-1.0-0.tar.bz2"] := Dir ]}
    = (Ok tt, {[ ["mirror"; "linux-64"; "alpha-1.0-0.tar.bz2"] := Dir ]}, []).
Proof.
  apply (download_package_on_directory Demo.env Demo.pkg_a ["mirror"]).
  vm_compute. reflexivity.
Defined.

(** ** Bootstrapping a local channel *)

Section mkdir_facts.
Implicit Types (fs : FS) (d todo pre suf : Path).

Lemma mkdir_from_prefix_dirs fs d todo fs' :
  mkdir_from fs d todo = Ok fs' →
  ∀ pre (c : string) suf, todo = pre ++ c :: suf → fs' !! (d ++ pre ++ [c]) = Some Dir.
Proof.
  revert fs d. induction todo as [|c0 rest IH]; intros fs d Hrun pre c suf Heq.
  - by destruct pre.
  - simpl in Hrun. destruct pre as [|c1 pre]; simpl in Heq; simplify_eq.
    + simpl. destruct (fs !! (d ++ [c])) as [[data|]|] eqn:Hp; [done| |].
      * by apply (mkdir_from_extends _ _ _ _ Hrun).
      * apply (mkdir_from_extends _ _ _ _ Hrun). apply lookup_insert_eq.
    + replace (d ++ (c1 :: pre) ++ [c]) with ((d ++ [c1]) ++ pre ++ [c])
        by (by rewrite <-app_assoc).
      destruct (fs !! (d ++ [c1])) as [[data|]|] eqn:Hp; [done| |];
        by eapply IH.
Qed.

Lemma mkdir_from_noop fs d todo :
  (∀ pre (c : string) suf, todo = pre ++ c :: suf → fs !! (d ++ pre ++ [c]) = Some Dir) →
  mkdir_from fs d todo = Ok fs.
Proof.
  revert d. induction todo as [|c0 rest IH]; intros d Hdirs; [done|].
  pose proof (Hdirs [] c0 rest eq_refl) as Hfirst. simpl in *. rewrite Hfirst. apply IH.
  intros pre c suf ->. rewrite <-app_assoc. by apply (Hdirs (c0 :: pre) c suf).
Qed.
End mkdir_facts.

(** X9.  Where the bootstrap of a local channel returns, [path/noarch] is
    a directory, an index file that was already at
    [path/noarch/repodata.json] is still there with its content, a missing
    one has been created empty, and running the bootstrap again changes
    nothing.  [_ensure_local_channel] of the API is the same operation. *)
Theorem setup_channel_keeps_or_creates (E : Env) (path : Path) (fs : FS)
    (returned : Path) :
  result_of (External.setup_channel path fs) = Ok returned →
  returned = path
  ∧ is_dir (fs_of (External.setup_channel path fs)) (path ++ ["noarch"]) = true
  ∧ (∀ n, fs !! (path ++ ["noarch"; "repodata.json"]) = Some n →
       fs_of (External.setup_channel path fs) !! (path ++ ["noarch"; "repodata.json"])
       = Some n)
  ∧ (fs !! (path ++ ["noarch"; "repodata.json"]) = None →
       fs_of (External.setup_channel path fs) !! (path ++ ["noarch"; "repodata.json"])
       = Some (File []))
  ∧ External.setup_channel path (fs_of (External.setup_channel path fs))
    = (Ok path, fs_of (External.setup_channel path fs), [EvMkdir (path ++ ["noarch"])])
  ∧ Api._ensure_local_channel E (AsPath path) = External.setup_channel path.
Proof.
  assert (Hsame : Api._ensure_local_channel E (AsPath path) = External.setup_channel path)
    by reflexivity.
  revert Hsame. generalize (Api._ensure_local_channel E (AsPath path)). intros ensure Hsame.
  unfold External.setup_channel. rewrite parent_app2.
  set (noarch := path ++ ["noarch"]).
  set (stub := path ++ ["noarch"; "repodata.json"]).
  unfold mkdir, touch, write_bytes, exists_, bind, emit, update_fs, ret,
    result_of, fs_of. simpl.
  destruct (mkdir_parents fs noarch) as [e|fs1] eqn:Hmk; [done|]. simpl.
  assert (Hnoarch : is_dir fs1 noarch = true) by by apply mkdir_parents_is_dir with fs.
  assert (Hstub1 : fs1 !! stub = fs !! stub).
  { apply (mkdir_from_longer _ _ _ _ Hmk). subst stub noarch.
    rewrite !length_app. simpl. lia. }
  assert (Hpre : ∀ fs2, (∀ q, fs1 !! q = Some Dir → fs2 !! q = Some Dir) →
    mkdir_parents fs2 noarch = Ok fs2).
  { intros fs2 Hext. apply mkdir_from_noop. intros pre c suf Heq. apply Hext.
    by apply (mkdir_from_prefix_dirs _ _ _ _ Hmk pre c suf). }
  destruct (path_exists fs1 stub) eqn:Hex; simpl.
  - intros [= <-]. split; [done|]. split; [done|].
    split; [by intros n Hn; rewrite Hstub1|].
    split.
    { intros Hnone. unfold path_exists, is_dir, is_file in Hex. rewrite Hstub1, Hnone in Hex.
      subst stub. by destruct path. }
    split; [|by (rewrite Hsame; unfold External.setup_channel; by rewrite parent_app2)]. rewrite (Hpre fs1) by done. simpl. by rewrite Hex.
  - unfold write_file.
    assert (is_dir fs1 stub = false) as -> by (by apply orb_false_iff in Hex as [? _]).
    replace (parent stub) with noarch by (subst stub noarch; by rewrite parent_app2).
    rewrite Hnoarch. simpl. intros [= <-]. split; [done|].
    assert (Hne : ∀ q, fs1 !! q = Some Dir → stub ≠ q).
    { intros q Hq <-. apply is_dir_lookup in Hq.
      apply orb_false_iff in Hex as [? _]. congruence. }
    split.
    { apply is_dir_lookup. destruct (is_dir_inv _ _ Hnoarch) as [Hnil|Hdir].
      - subst noarch. by destruct path.
      - rewrite lookup_insert_ne; [done|]. by apply Hne. }
    split.
    { intros n Hn. rewrite <-Hstub1 in Hn. unfold path_exists, is_dir, is_file in Hex.
      rewrite Hn in Hex. subst stub. destruct path, n; done. }
    split; [intros _; apply lookup_insert_eq|].
    split; [|by (rewrite Hsame; unfold External.setup_channel, touch, write_bytes, write_file; subst stub noarch; by rewrite ?parent_app2)].
    rewrite (Hpre (<[stub := File []]> fs1)).
    2:{ intros q Hq. rewrite lookup_insert_ne; [done|]. by apply Hne. }
    simpl. unfold path_exists, is_file. rewrite lookup_insert_eq.
    by rewrite orb_true_r.
Qed.

Lemma setup_channel_keeps_or_creates_witness :
  ["mirror"] = ["mirror"]
  ∧ is_dir (fs_of (External.setup_channel ["mirror"] ∅)) (["mirror"] ++ ["noarch"]) = true
  ∧ (∀ n, (∅ : FS) !! (["mirror"] ++ ["noarch"; "repodata.json"]) = Some n →
       fs_of (External.setup_channel ["mirror"] ∅)
         !! (["mirror"] ++ ["noarch"; "repodata.json"]) = Some n)
  ∧ ((∅ : FS) !! (["mirror"] ++ ["noarch"; "repodata.json"]) = None →
       fs_of (External.setup_channel ["mirror"] ∅)
         !! (["mirror"] ++ ["noarch"; "repodata.json"]) = Some (File []))
  ∧ External.setup_channel ["mirror"] (fs_of (External.setup_channel ["mirror"] ∅))
    = (Ok ["mirror"], fs_of (External.setup_channel ["mirror"] ∅),
       [EvMkdir (["mirror"] ++ ["noarch"])])
  ∧ Api._ensure_local_channel Demo.env (AsPath ["mirror"])
    = External.setup_channel ["mirror"].
Proof.
  apply (setup_channel_keeps_or_creates Demo.env ["mirror"] ∅ ["mirror"]).
  vm_compute. reflexivity.
Defined.

(** ** Downloading a package again *)

Section download_again.
Variable E : Env.
Implicit Types (fs : FS) (destination : Path) (record : PackageRecord).

Lemma path_exists_file fs (p : Path) data :
  fs !! p = Some (File data) → path_exists fs p = true.
Proof. intros Hp. unfold path_exists, is_file. by rewrite Hp, orb_true_r. Qed.

Lemma download_package_unverified_skip record destination fs :
  path_exists fs (destination ++ [pr_subdir record; pr_fn record]) = true →
  External.download_package E record destination false fs = (Ok tt, fs, []).
Proof.
  intros Hex. unfold External.download_package, bind, exists_. by rewrite Hex.
Qed.

Lemma download_package_verified_skip record destination fs data :
  fs !! (destination ++ [pr_subdir record; pr_fn record]) = Some (File data) →
  pr_sha256 record = sha256_hexdigest E data →
  pr_size record = Z.of_nat (length data) →
  External.download_package E record destination true fs = (Ok tt, fs, []).
Proof.
  intros Hp Hsha Hsize. pose proof (path_exists_file _ _ _ Hp) as Hex.
  unfold External.download_package, External.verify_file, bind, exists_, read_bytes,
    read_file, ret. simpl.
  rewrite Hex, Hp. simpl. by rewrite !bool_decide_eq_true_2.
Qed.

Lemma fetch_Ok_inv url (path : Path) sha size fs :
  result_of ((mkdir (parent path) ;;; External._download E url path sha size) fs) = Ok tt →
  ∃ fs1 data,
    mkdir_parents fs (parent path) = Ok fs1 ∧ conda_download E url sha size = Ok data.
Proof.
  unfold mkdir, External._download, bind, emit, update_fs, lift, result_of. simpl.
  destruct (mkdir_parents fs (parent path)) as [e|fs1]; [done|]. simpl.
  destruct (conda_download E url sha size) as [e|data]; [done|]. eauto.
Qed.

(** After a download, the file is at the path and holds the bytes. *)
Lemma fetch_Ok_file url destination (a b : string) sha size fs :
  is_dir fs (destination ++ [a; b]) = false →
  result_of ((mkdir (parent (destination ++ [a; b])) ;;;
              External._download E url (destination ++ [a; b]) sha size) fs) = Ok tt →
  ∃ data,
    conda_download E url sha size = Ok data
    ∧ fs_of ((mkdir (parent (destination ++ [a; b])) ;;;
              External._download E url (destination ++ [a; b]) sha size) fs)
        !! (destination ++ [a; b]) = Some (File data).
Proof.
  intros Hnodir Hok. destruct (fetch_Ok_inv _ _ _ _ _ Hok) as (fs1 & data & Hmk & Hdl).
  exists data. split; [done|].
  rewrite (download_run E url destination a b sha size fs fs1 data Hnodir Hmk Hdl).
  apply lookup_insert_eq.
Qed.

Lemma read_file_Ok fs (p : Path) data :
  read_file fs p = Ok data → fs !! p = Some (File data).
Proof.
  unfold read_file. destruct (fs !! p) as [[c|]|]; [by intros [= ->]|done|by destruct p].
Qed.

(** The branches of [download_package], one by one. *)
Lemma download_package_run record destination (verify : bool) fs :
  let path := destination ++ [pr_subdir record; pr_fn record] in
  let fetch :=
    (mkdir (parent path) ;;;
     External._download E (pr_url record) path
       (if verify then Some (pr_sha256 record) else None)
       (if verify then Some (pr_size record) else None)) in
  External.download_package E record destination verify fs
  = if path_exists fs path then
      if verify then
        match read_file fs path with
        | Err e => (Err e, fs, [])
        | Ok data =>
            if bool_decide (pr_sha256 record = sha256_hexdigest E data)
               && bool_decide (pr_size record = Z.of_nat (length data))
            then (Ok tt, fs, [])
            else let '(r, fs2, t2) := fetch fs in (r, fs2, EvLogInfo path :: t2)
        end
      else (Ok tt, fs, [])
    else fetch fs.
Proof.
  intros path fetch. subst fetch.
  unfold External.download_package, External.verify_file, bind, exists_, read_bytes,
    ret, emit. cbv zeta. fold path.
  destruct (path_exists fs path).
  - destruct verify; [|done].
    destruct (read_file fs path) as [e|data]; [done|]. simpl.
    destruct (bool_decide _ && bool_decide _); [done|].
    destruct (mkdir (parent path) fs) as [[[e|[]] fs1] t1]; [done|].
    by destruct (External._download E _ _ _ _ fs1) as [[r0 fs2] t2].
  - destruct (mkdir (parent path) fs) as [[[e|[]] fs1] t1]; [done|].
    by destruct (External._download E _ _ _ _ fs1) as [[r0 fs2] t2].
Qed.

End download_again.

(** X10.  A call of [download_package] that returned makes the next call
    for the same record a no-op: without [verify] the file found is
    skipped; with [verify] it is skipped too, provided the downloader only
    delivers bytes that have the sha256 and the size it was asked for. *)
Theorem download_package_twice (E : Env) (record : PackageRecord)
    (destination : Path) (verify : bool) (fs : FS) :
  result_of (External.download_package E record destination verify fs) = Ok tt →
  (∀ data,
     conda_download E (pr_url record) (Some (pr_sha256 record)) (Some (pr_size record))
     = Ok data →
     pr_sha256 record = sha256_hexdigest E data
     ∧ pr_size record = Z.of_nat (length data)) →
  External.download_package E record destination verify
    (fs_of (External.download_package E record destination verify fs))
  = (Ok tt, fs_of (External.download_package E record destination verify fs), []).
Proof.
  intros Hok Hchecked.
  set (path := destination ++ [pr_subdir record; pr_fn record]).
  assert (Hfetched : ∀ sha size fs0,
    is_dir fs0 path = false →
    result_of ((mkdir (parent path) ;;;
                External._download E (pr_url record) path sha size) fs0) = Ok tt →
    (verify = true → sha = Some (pr_sha256 record) ∧ size = Some (pr_size record)) →
    External.download_package E record destination verify
      (fs_of ((mkdir (parent path) ;;;
               External._download E (pr_url record) path sha size) fs0))
    = (Ok tt, fs_of ((mkdir (parent path) ;;;
               External._download E (pr_url record) path sha size) fs0), [])).
  { intros sha size fs0 Hnodir Hrun Hv.
    destruct (fetch_Ok_file E _ _ _ _ sha size fs0 Hnodir Hrun) as (data & Hdl & Hfile).
    fold path in Hfile. destruct verify.
    - destruct (Hv eq_refl) as [-> ->]. destruct (Hchecked data Hdl) as [Hsha Hsize].
      by apply download_package_verified_skip with data.
    - apply download_package_unverified_skip. by apply path_exists_file with data. }
  pose proof (download_package_run E record destination verify fs) as Hrun.
  cbv zeta in Hrun. fold path in Hrun.
  destruct (path_exists fs path) eqn:Hex.
  - destruct verify.
    + destruct (read_file fs path) as [e|data] eqn:Hread.
      { rewrite Hrun in Hok. discriminate. }
      apply read_file_Ok in Hread.
      destruct (bool_decide (pr_sha256 record = sha256_hexdigest E data)
                && bool_decide (pr_size record = Z.of_nat (length data))) eqn:Hm.
      * rewrite Hrun. change (fs_of (Ok tt, fs, [])) with fs.
        apply andb_true_iff in Hm as [Hsha Hsize].
        apply bool_decide_eq_true in Hsha, Hsize.
        by apply download_package_verified_skip with data.
      * assert (Hnodir : is_dir fs path = false)
          by (apply is_dir_file with data; [apply target_not_empty|done]).
        specialize (Hfetched (Some (pr_sha256 record)) (Some (pr_size record)) fs Hnodir).
        rewrite Hrun in Hok |- *.
        destruct ((mkdir (parent path) ;;;
                   External._download E (pr_url record) path (Some (pr_sha256 record))
                     (Some (pr_size record))) fs) as [[r fs2] t2].
        apply Hfetched; [exact Hok|done].
    + rewrite Hrun. change (fs_of (Ok tt, fs, [])) with fs.
      by apply download_package_unverified_skip.
  - assert (Hnodir : is_dir fs path = false)
      by (unfold path_exists in Hex; by apply orb_false_iff in Hex as [? _]).
    rewrite Hrun in Hok |- *. apply Hfetched; [done|done|].
    intros ->. done.
Qed.

Lemma download_package_twice_witness :
  External.download_package Demo.env Demo.pkg_c ["mirror"] true
    (fs_of (External.download_package Demo.env Demo.pkg_c ["mirror"] true ∅))
  = (Ok tt, fs_of (External.download_package Demo.env Demo.pkg_c ["mirror"] true ∅), []).
Proof.
  apply (download_package_twice Demo.env Demo.pkg_c ["mirror"] true ∅).
  - vm_compute. reflexivity.
  - intros data Hdata. injection Hdata as <-. split; vm_compute; reflexivity.
Defined.

(** ** Packages to remove in the patch instructions *)

Section remove_facts.
Implicit Types (members : list (string * Json)) (data : Json) (fs : FS).

Lemma members_append_get members key item items :
  members_get members key = Some (JArr items) →
  ∃ members',
    members_append members key item = Ok members'
    ∧ members_get members' key = Some (JArr (items ++ [item]))
    ∧ ∀ k, k ≠ key → members_get members' k = members_get members k.
Proof.
  induction members as [|[k v] members IH]; simpl; [done|].
  destruct (decide (k = key)) as [->|Hne].
  - intros [= ->]. eexists. split; [done|]. simpl.
    rewrite decide_True by done. split; [done|].
    intros k Hk. by rewrite !decide_False by done.
  - intros Hget. destruct (IH Hget) as (members' & -> & Hnew & Hother).
    eexists. split; [done|]. simpl. rewrite decide_False by done.
    split; [done|]. intros k' Hk'. destruct (decide (k = k')); [done|]. by apply Hother.
Qed.

Lemma members_append_missing members key item :
  members_get members key = None → members_append members key item = Err KeyError.
Proof.
  induction members as [|[k v] members IH]; simpl; [done|].
  destruct (decide (k = key)); [done|]. intros Hget. by rewrite (IH Hget).
Qed.

(** [append_removed] neither reads nor changes the file system. *)
Lemma append_removed_run data packages fs :
  External.append_removed data packages fs
  = (result_of (External.append_removed data packages ∅), fs, []).
Proof.
  revert data. induction packages as [|package rest IH]; intros data; [done|].
  simpl. unfold bind, lift. simpl.
  destruct (json_append data "remove" (JStr (pr_fn package))) as [e|data']; [done|].
  rewrite (IH data'). unfold result_of. simpl.
  by destruct (External.append_removed data' rest ∅) as [[r fs'] t].
Qed.
End remove_facts.

(** X11.  On a document whose ["remove"] entry is an array, the loop
    [data["remove"].append(package.fn)] succeeds: afterwards the array is
    the old one followed by the filenames of the packages, in their order,
    and every other entry of the document is as before. *)
Theorem append_removed_appends (data : Json) (packages : list PackageRecord)
    (fs : FS) (items : list Json) :
  json_get data "remove" = Some (JArr items) →
  ∃ data',
    External.append_removed data packages fs = (Ok data', fs, [])
    ∧ json_get data' "remove" = Some (JArr (items ++ (JStr ∘ pr_fn <$> packages)))
    ∧ ∀ key, key ≠ "remove" → json_get data' key = json_get data key.
Proof.
  revert data items. induction packages as [|package rest IH]; intros data items Hget.
  - exists data. simpl. by rewrite app_nil_r.
  - destruct data as [| | | | |members]; try done. simpl in Hget.
    destruct (members_append_get members "remove" (JStr (pr_fn package)) items Hget)
      as (members' & Happ & Hnew & Hother).
    destruct (IH (JObj members') (items ++ [JStr (pr_fn package)]) Hnew)
      as (data' & Hrun & Hget' & Hother').
    exists data'. split; [|split].
    + simpl. unfold bind, lift, json_append. rewrite Happ. by rewrite Hrun.
    + rewrite Hget'. by rewrite <-app_assoc.
    + intros key Hkey. rewrite (Hother' key Hkey). simpl. by apply Hother.
Qed.

Lemma append_removed_appends_witness :
  ∃ data',
    External.append_removed Demo.remove_nothing [Demo.pkg_a; Demo.pkg_b] ∅
    = (Ok data', ∅, [])
    ∧ json_get data' "remove"
      = Some (JArr ([] ++ (JStr ∘ pr_fn <$> [Demo.pkg_a; Demo.pkg_b])))
    ∧ ∀ key, key ≠ "remove" → json_get data' key = json_get Demo.remove_nothing key.
Proof.
  apply (append_removed_appends Demo.remove_nothing [Demo.pkg_a; Demo.pkg_b] ∅ []).
  reflexivity.
Defined.

(** X12.  On a document that is an object without a ["remove"] entry, the
    first package to remove raises [KeyError]; with no package the document
    is returned as it is. *)
Theorem append_removed_missing_key (members : list (string * Json))
    (package : PackageRecord) (rest : list PackageRecord) (fs : FS) :
  json_get (JObj members) "remove" = None →
  External.append_removed (JObj members) (package :: rest) fs = (Err KeyError, fs, [])
  ∧ External.append_removed (JObj members) [] fs = (Ok (JObj members), fs, []).
Proof.
  intros Hget. split; [|done]. simpl in *.
  unfold bind, lift, json_append. by rewrite (members_append_missing _ _ _ Hget).
Qed.

Lemma append_removed_missing_key_witness :
  External.append_removed (JObj [("revoke", JArr [])]) [Demo.pkg_a] ∅
  = (Err KeyError, ∅, [])
  ∧ External.append_removed (JObj [("revoke", JArr [])]) [] ∅
    = (Ok (JObj [("revoke", JArr [])]), ∅, []).
Proof.
  apply (append_removed_missing_key [("revoke", JArr [])] Demo.pkg_a [] ∅).
  reflexivity.
Defined.

(** X13.  When packages to remove are given and [fetch_patch_instructions]
    returns, the file holds the re-encoded document written over the start
    of the bytes received: the document is the decoded response with the
    filenames appended, and since the file is not truncated it is never
    shorter than the response, whose tail stays behind a shorter
    encoding. *)
Theorem fetch_patch_instructions_rewrites (E : Env) (channel : string)
    (destination : Path) (subdir : string)
    (packages_to_remove : option (PyIterable PackageRecord)) (fs : FS) :
  iterable_truthy packages_to_remove = true →
  result_of (External.fetch_patch_instructions E channel destination subdir
               packages_to_remove fs) = Ok tt →
  ∃ base rest response data data',
    all_channel_urls E [channel] [subdir] = base :: rest
    ∧ requests_get E (urljoin E (base +:+ "/") External.PATCH_INSTRUCTIONS) = Ok response
    ∧ json_load E (content response) = Ok data
    ∧ result_of (External.append_removed data
                   (from_option iter_items [] packages_to_remove) ∅) = Ok data'
    ∧ fs_of (External.fetch_patch_instructions E channel destination subdir
               packages_to_remove fs)
        !! (destination ++ [subdir; External.PATCH_INSTRUCTIONS])
      = Some (File (json_dump E data'
                    ++ drop (length (json_dump E data')) (content response)))
    ∧ (length (content response)
       ≤ length (json_dump E data'
                 ++ drop (length (json_dump E data')) (content response)))%nat.
Proof.
  intros Htruthy.
  unfold External.fetch_patch_instructions. rewrite Htruthy.
  unfold External.first_item, External.get, External.raise_for_status,
    External.write_at_start, mkdir, write_bytes, read_bytes, bind, emit, update_fs,
    lift, ret, raise, result_of, fs_of. simpl.
  destruct (all_channel_urls E [channel] [subdir]) as [|base rest]; [done|].
  destruct (requests_get E _) as [e|response] eqn:Hget; [done|].
  case_bool_decide; [done|]. simpl.
  destruct (mkdir_parents fs destination) as [e|fs1]; [done|]. simpl.
  destruct (mkdir_parents fs1 _) as [e|fs2]; [done|]. simpl.
  destruct (write_file fs2 _ _) as [e|fs3] eqn:Hwrite; [done|]. simpl.
  apply write_file_lookup in Hwrite. unfold read_file. rewrite Hwrite. simpl.
  destruct (json_load E (content response)) as [e|data] eqn:Hload; [done|]. simpl.
  rewrite append_removed_run. simpl.
  destruct (result_of (External.append_removed data _ ∅)) as [e|data'] eqn:Happ; [done|].
  simpl. rewrite Hwrite. simpl.
  destruct (write_file fs3 _ _) as [e|fs4] eqn:Hwrite2; [done|]. simpl.
  intros _. exists base, rest, response, data, data'.
  split; [done|]. split; [done|]. split; [done|]. split; [done|].
  split; [by apply write_file_lookup in Hwrite2|].
  rewrite length_app, length_drop. lia.
Qed.

Lemma fetch_patch_instructions_rewrites_witness :
  ∃ base rest response data data',
    all_channel_urls Demo.env ["up"] ["noarch"] = base :: rest
    ∧ requests_get Demo.env (urljoin Demo.env (base +:+ "/") External.PATCH_INSTRUCTIONS)
      = Ok response
    ∧ json_load Demo.env (content response) = Ok data
    ∧ result_of (External.append_removed data
                   (from_option iter_items [] (Some (Sized [Demo.pkg_b]))) ∅) = Ok data'
    ∧ fs_of (External.fetch_patch_instructions Demo.env "up" ["patch"] "noarch"
               (Some (Sized [Demo.pkg_b])) ∅)
        !! (["patch"] ++ ["noarch"; External.PATCH_INSTRUCTIONS])
      = Some (File (json_dump Demo.env data'
                    ++ drop (length (json_dump Demo.env data')) (content response)))
    ∧ (length (content response)
       ≤ length (json_dump Demo.env data'
                 ++ drop (length (json_dump Demo.env data')) (content response)))%nat.
Proof.
  apply (fetch_patch_instructions_rewrites Demo.env "up" ["patch"] "noarch"
           (Some (Sized [Demo.pkg_b])) ∅).
  - reflexivity.
  - vm_compute. reflexivity.
Defined.

(** ** Copying a patch into a local channel *)

Lemma elem_of_glob_all (fs : FS) (root p : Path) :
  p ∈ glob_all fs root ↔ below root p = true ∧ is_Some (fs !! p).
Proof.
  unfold glob_all. rewrite list_elem_of_filter, list_elem_of_fmap. split.
  - intros [Hb ([q n] & -> & Hin)]. apply elem_of_map_to_list in Hin. simpl in *. eauto.
  - intros [Hb [n Hn]]. split; [done|]. exists (p, n). split; [done|].
    by apply elem_of_map_to_list.
Qed.

Lemma files_are_leaves_spec (fs : FS) (p q : Path) data :
  files_are_leaves fs = true →
  fs !! p = Some (File data) → below p q = true → fs !! q = None.
Proof.
  unfold files_are_leaves. rewrite forallb_forall. intros Hall Hp Hb.
  destruct (fs !! q) as [n|] eqn:Hq; [|done].
  assert (Hkey : ∀ (k : Path) m, fs !! k = Some m → In k (map_to_list fs).*1).
  { intros k m Hk. apply list_elem_of_In, list_elem_of_fmap. exists (k, m).
    split; [done|]. by apply elem_of_map_to_list. }
  specialize (Hall p (Hkey _ _ Hp)). unfold is_file in Hall. rewrite Hp in Hall.
  simpl in Hall. rewrite forallb_forall in Hall. specialize (Hall q (Hkey _ _ Hq)).
  by rewrite Hb in Hall.
Qed.

Section merge_copy.
Variables (local patch : Path) (fs : FS).
Hypothesis Hapart : apart local patch = true.
Hypothesis Hleaves : files_are_leaves fs = true.

Lemma copy_target_not_below (p : Path) : below patch (copy_target fs local patch p) = false.
Proof.
  unfold copy_target. cbv zeta. destruct (is_dir fs _).
  - rewrite <-app_assoc. by apply apart_not_below.
  - by apply apart_not_below.
Qed.

(** Two regular files of the patch are never copied to the same place. *)
Lemma copy_target_inj (p p' : Path) data data' :
  below patch p = true → below patch p' = true →
  fs !! p = Some (File data) → fs !! p' = Some (File data') →
  copy_target fs local patch p = copy_target fs local patch p' → p = p'.
Proof.
  intros [Hp Hr]%below_relative [Hp' Hr']%below_relative Hf Hf'.
  unfold copy_target. cbv zeta.
  assert (Hclash : ∀ (a b : Path) (c : string) d d',
    fs !! (patch ++ a) = Some (File d) → fs !! (patch ++ b) = Some (File d') →
    (local ++ a) ++ [c] = local ++ b → False).
  { intros a b c d d' Ha Hb Heq. rewrite <-app_assoc in Heq. apply app_inv_head in Heq.
    subst b. rewrite app_assoc in Hb.
    pose proof (files_are_leaves_spec fs _ _ _ Hleaves Ha (below_snoc (patch ++ a) c)).
    congruence. }
  rewrite Hp in Hf. rewrite Hp' in Hf'.
  destruct (is_dir fs (local ++ relative_to p patch)),
    (is_dir fs (local ++ relative_to p' patch)); intros Heq.
  - apply app_inj_tail in Heq as [Heq _]. apply app_inv_head in Heq. congruence.
  - exfalso. exact (Hclash _ _ _ _ _ Hf Hf' Heq).
  - exfalso. symmetry in Heq. exact (Hclash _ _ _ _ _ Hf' Hf Heq).
  - apply app_inv_head in Heq. congruence.
Qed.

(** One turn of the loop of [merge]. *)
Lemma copy_step (fs0 : FS) (p : Path) :
  below patch p = true →
  (∀ q, below patch q = true → fs0 !! q = fs !! q) →
  (∀ q, is_dir fs0 q = is_dir fs q) →
  result_of ((regular <- is_file_ p ;;
              if regular then shutil_copy p (local ++ relative_to p patch)
              else ret tt) fs0) = Ok tt →
  fs_of ((regular <- is_file_ p ;;
          if regular then shutil_copy p (local ++ relative_to p patch)
          else ret tt) fs0)
  = match fs !! p with
    | Some (File data) => <[copy_target fs local patch p := File data]> fs0
    | _ => fs0
    end
  ∧ (∀ data, fs !! p = Some (File data) →
       is_dir fs (copy_target fs local patch p) = false).
Proof.
  intros Hp Hsame Hdirs.
  unfold is_file_, shutil_copy, get_fs, read_bytes, write_bytes, bind, update_fs, emit,
    raise, ret, result_of, fs_of, is_file, read_file. simpl.
  rewrite (Hsame p Hp).
  destruct (fs !! p) as [[data|]|] eqn:Hfile; simpl; [|done|done].
  rewrite Hdirs.
  change (if is_dir fs (local ++ relative_to p patch)
          then (local ++ relative_to p patch) ++ [basename p]
          else local ++ relative_to p patch) with (copy_target fs local patch p).
  destruct (decide (p = copy_target fs local patch p)); [done|]. simpl.
  rewrite (Hsame p Hp), Hfile. simpl.
  unfold write_file. rewrite !Hdirs.
  destruct (is_dir fs (copy_target fs local patch p)); [done|].
  destruct (is_dir fs (parent (copy_target fs local patch p))); simpl.
  - intros _. split; [done|]. by intros ? [= <-].
  - by destruct (is_file fs0 (parent (copy_target fs local patch p))).
Qed.

Lemma copy_loop (l : list Path) : ∀ fs0 : FS,
  (∀ p, p ∈ l → below patch p = true) →
  (∀ q, below patch q = true → fs0 !! q = fs !! q) →
  (∀ q, is_dir fs0 q = is_dir fs q) →
  result_of (for_each l (λ file,
      regular <- is_file_ file ;;
      if regular then shutil_copy file (local ++ relative_to file patch)
      else ret tt) fs0) = Ok tt →
  (∀ p data, p ∈ l → fs !! p = Some (File data) →
     fs_of (for_each l (λ file,
         regular <- is_file_ file ;;
         if regular then shutil_copy file (local ++ relative_to file patch)
         else ret tt) fs0) !! copy_target fs local patch p = Some (File data))
  ∧ (∀ q, (∀ p data, p ∈ l → fs !! p = Some (File data) →
             q ≠ copy_target fs local patch p) →
       fs_of (for_each l (λ file,
           regular <- is_file_ file ;;
           if regular then shutil_copy file (local ++ relative_to file patch)
           else ret tt) fs0) !! q = fs0 !! q).
Proof.
  induction l as [|p0 l IH]; intros fs0 Hbelow Hsame Hdirs Hok.
  - split; [by intros p data Hp%elem_of_nil|done].
  - cbn [for_each] in *.
    apply bind_Ok_inv in Hok as ([] & Hstep & Hrest).
    rewrite (bind_Ok_fs _ _ _ _ Hstep).
    assert (Hp0 : below patch p0 = true) by (apply Hbelow; left).
    destruct (copy_step fs0 p0 Hp0 Hsame Hdirs Hstep) as [Hfs1 Hnodir].
    set (fs1 := fs_of ((regular <- is_file_ p0 ;;
                        if regular then shutil_copy p0 (local ++ relative_to p0 patch)
                        else ret tt) fs0)) in *.
    assert (Hsame1 : ∀ q, below patch q = true → fs1 !! q = fs !! q).
    { intros q Hq. rewrite Hfs1. destruct (fs !! p0) as [[data|]|]; [|by apply Hsame..].
      rewrite lookup_insert_ne; [by apply Hsame|]. intros <-.
      by rewrite copy_target_not_below in Hq. }
    assert (Hdirs1 : ∀ q, is_dir fs1 q = is_dir fs q).
    { intros q. rewrite Hfs1. destruct (fs !! p0) as [[data|]|] eqn:Hf; [|by apply Hdirs..].
      rewrite <-Hdirs. unfold is_dir. destruct q as [|c q]; [done|].
      destruct (decide (copy_target fs local patch p0 = c :: q)) as [Heq|Hne].
      - rewrite Heq, lookup_insert_eq. specialize (Hnodir data eq_refl).
        rewrite <-Hdirs, Heq in Hnodir. unfold is_dir in Hnodir.
        by destruct (fs0 !! (c :: q)) as [[|]|].
      - by rewrite lookup_insert_ne. }
    destruct (IH fs1 (λ p Hp, Hbelow p (list_elem_of_further _ _ _ Hp)) Hsame1 Hdirs1 Hrest)
      as [IHcopied IHframe].
    split.
    + intros p data Hp Hf. destruct (decide (p ∈ l)) as [Hin|Hnotin]; [by apply IHcopied|].
      apply elem_of_cons in Hp as [->|Hp]; [|done].
      rewrite IHframe.
      * rewrite Hfs1, Hf. apply lookup_insert_eq.
      * intros p' data' Hp' Hf' Heq. apply Hnotin.
        rewrite (copy_target_inj p0 p' data data'); [done|done|by apply Hbelow; right|done..].
    + intros q Hq. rewrite IHframe.
      * rewrite Hfs1. destruct (fs !! p0) as [[data|]|] eqn:Hf; [|done..].
        rewrite lookup_insert_ne; [done|]. intros Heq. by apply (Hq p0 data); [left|..].
      * intros p data Hp. apply Hq. by right.
Qed.
End merge_copy.

Lemma glob_bind {B} (root : Path) (f : list Path → M B) (fs : FS) :
  result_of (bind (glob root) f fs) = result_of (f (glob_all fs root) fs)
  ∧ fs_of (bind (glob root) f fs) = fs_of (f (glob_all fs root) fs).
Proof.
  unfold bind, glob, result_of, fs_of. by destruct (f (glob_all fs root) fs) as [[r fs1] t1].
Qed.

Lemma then_print (m : M unit) (ev : Event) (fs : FS) :
  result_of ((m ;;; emit ev ;;; ret tt) fs) = result_of (m fs)
  ∧ fs_of ((m ;;; emit ev ;;; ret tt) fs) = fs_of (m fs).
Proof.
  unfold bind, emit, ret, result_of, fs_of. by destruct (m fs) as [[[e|[]] fs1] t1].
Qed.

(** X14.  Copying a patch into a local channel that lies apart from it
    (index left alone): where [merge] returns, every regular file of the
    patch is found with its content at its place in the local channel, or
    inside the directory that was at that place, and every other path,
    the patch itself included, is as before. *)
Theorem merge_copies_patch_files (E : Env) (local patch : PathOrString)
    (progress : bool) (fs : FS) :
  apart (Api.to_path E local) (Api.to_path E patch) = true →
  files_are_leaves fs = true →
  result_of (Api.merge E local patch false progress fs) = Ok tt →
  (∀ file data,
     below (Api.to_path E patch) file = true → fs !! file = Some (File data) →
     fs_of (Api.merge E local patch false progress fs)
       !! copy_target fs (Api.to_path E local) (Api.to_path E patch) file
     = Some (File data))
  ∧ (∀ q,
       (∀ file data,
          below (Api.to_path E patch) file = true → fs !! file = Some (File data) →
          q ≠ copy_target fs (Api.to_path E local) (Api.to_path E patch) file) →
       fs_of (Api.merge E local patch false progress fs) !! q = fs !! q).
Proof.
  intros Hapart Hleaves Hok. unfold Api.merge in *. cbv zeta in *.
  rewrite (proj1 (glob_bind _ _ _)) in Hok. rewrite (proj2 (glob_bind _ _ _)).
  cbv beta in *.
  rewrite (proj1 (then_print _ _ _)) in Hok. rewrite (proj2 (then_print _ _ _)).
  destruct (copy_loop (Api.to_path E local) (Api.to_path E patch) fs Hapart Hleaves
              (glob_all fs (Api.to_path E patch)) fs
              (λ p Hp, proj1 (proj1 (elem_of_glob_all _ _ _) Hp))
              (λ _ _, eq_refl) (λ _, eq_refl) Hok) as [Hcopied Hframe].
  split.
  - intros file data Hb Hf. apply Hcopied; [|done]. apply elem_of_glob_all. eauto.
  - intros q Hq. apply Hframe.
    intros p data [Hb _]%elem_of_glob_all Hf. by apply (Hq p data).
Qed.

Lemma merge_copies_patch_files_witness :
  (∀ file data,
     below (Api.to_path Demo.env (AsString "patch")) file = true →
     Demo.mirror_and_noarch_patch !! file = Some (File data) →
     fs_of (Api.merge Demo.env (AsString "mirror") (AsString "patch") false false
              Demo.mirror_and_noarch_patch)
       !! copy_target Demo.mirror_and_noarch_patch
            (Api.to_path Demo.env (AsString "mirror"))
            (Api.to_path Demo.env (AsString "patch")) file
     = Some (File data))
  ∧ (∀ q,
       (∀ file data,
          below (Api.to_path Demo.env (AsString "patch")) file = true →
          Demo.mirror_and_noarch_patch !! file = Some (File data) →
          q ≠ copy_target Demo.mirror_and_noarch_patch
                (Api.to_path Demo.env (AsString "mirror"))
                (Api.to_path Demo.env (AsString "patch")) file) →
       fs_of (Api.merge Demo.env (AsString "mirror") (AsString "patch") false false
                Demo.mirror_and_noarch_patch) !! q
       = Demo.mirror_and_noarch_patch !! q).
Proof.
  apply (merge_copies_patch_files Demo.env (AsString "mirror") (AsString "patch") false
           Demo.mirror_and_noarch_patch).
  - vm_compute. reflexivity.
  - vm_compute. reflexivity.
  - vm_compute. reflexivity.
Defined.
